(** * collect: bounded concurrent collection of a directory tree

    A shallow embedding of [collect.go]: the pattern matcher ([isIgnored],
    [isIncluded]), the discovery walk of [collectFilesContent], the per-file
    processor ([processFile], [isBinaryFile], [countTokens]), the
    concurrent, mutex-guarded budget accumulator of [collectFilesContent],
    and the patterns [main] assembles ([parseGitignore], the flags, the
    default list).

    Go strings are byte sequences; they are modelled by [string] (a list of
    8-bit [ascii]).  Go's [int] is 64 bits wide; it is modelled by [Z] with
    the wrap-around of [+] written out ([add_int]). *)

From Stdlib Require Import ZArith Ascii.
From Stdlib Require String.
From stdpp Require Import base tactics option list strings gmap.

Local Open Scope Z_scope.

(** ** The Go standard library functions the program calls *)

(** [strings.HasPrefix]. *)
Fixpoint HasPrefix (s pre : string) : bool :=
  match pre, s with
  | EmptyString, _ => true
  | String a pre', String b s' => Ascii.eqb a b && HasPrefix s' pre'
  | String _ _, EmptyString => false
  end.

(** [strings.Contains]: [substr] occurs somewhere in [s]. *)
Fixpoint Contains (s substr : string) : bool :=
  HasPrefix s substr ||
  match s with
  | EmptyString => false
  | String _ s' => Contains s' substr
  end.

(** [strings.HasSuffix]: some tail of [s] is [suffix]. *)
Fixpoint HasSuffix (s suffix : string) : bool :=
  String.eqb s suffix ||
  match s with
  | EmptyString => false
  | String _ s' => HasSuffix s' suffix
  end.

Definition isSep (c : ascii) : bool := Ascii.eqb c "/".

(** [filepath.Base] (Unix): the last element of the path, after the
    trailing separators are removed. *)
Fixpoint trimSeps (path : string) : string :=
  match path with
  | EmptyString => EmptyString
  | String c r =>
      match trimSeps r with
      | EmptyString => if isSep c then EmptyString else String c EmptyString
      | r' => String c r'
      end
  end.

Fixpoint lastElem (path : string) : string :=
  match path with
  | EmptyString => EmptyString
  | String c r =>
      if Contains r "/" then lastElem r
      else if isSep c then r else path
  end.

Definition Base (path : string) : string :=
  if String.eqb path "" then "."
  else
    let path := lastElem (trimSeps path) in
    if String.eqb path "" then "/" else path.

(** *** [filepath.Match] (Go 1.16 and later, Unix)

    The matcher is a port of the library routine, chunk by chunk.  A
    literal of the pattern is compared byte by byte; [?] and a class consume
    one UTF-8 rune of the name, the bounds of a class are runes of the
    pattern, as [utf8.DecodeRuneInString] decodes them. *)

Inductive res (A : Type) : Type :=
  | Val (a : A)          (* err == nil *)
  | BadPattern           (* err == ErrBadPattern *)
  | OutOfFuel.           (* the model ran out of fuel: see [Match_go_total] *)
Arguments Val {A} a.
Arguments BadPattern {A}.
Arguments OutOfFuel {A}.

Fixpoint dropStars (pattern : string) : bool * string :=
  match pattern with
  | EmptyString => (false, pattern)
  | String c r =>
      if Ascii.eqb c "*" then (true, snd (dropStars r)) else (false, pattern)
  end.

(** The [Scan:] loop of [scanChunk]: the chunk ends at the first [*] outside
    a class; a backslash protects the byte after it. *)
Fixpoint scanEnd (inrange : bool) (pattern : string) : string * string :=
  match pattern with
  | EmptyString => (EmptyString, EmptyString)
  | String c r =>
      let keep (p : string * string) := (String c (fst p), snd p) in
      if Ascii.eqb c "\" then
        match r with
        | EmptyString => (String c EmptyString, EmptyString)
        | String c2 r2 =>
            let p := scanEnd inrange r2 in
            (String c (String c2 (fst p)), snd p)
        end
      else if Ascii.eqb c "[" then keep (scanEnd true r)
      else if Ascii.eqb c "]" then keep (scanEnd false r)
      else if Ascii.eqb c "*" then
        if inrange then keep (scanEnd inrange r) else (EmptyString, pattern)
      else keep (scanEnd inrange r)
  end.

Definition scanChunk (pattern : string) : bool * string * string :=
  let (star, p) := dropStars pattern in
  let (chunk, rest) := scanEnd false p in
  (star, chunk, rest).

(** [utf8.DecodeRuneInString]: the rune at the start of a string and the
    number of bytes of its encoding.  An encoding that is invalid or cut
    short gives [RuneError] with width 1, the empty string [RuneError] with
    width 0. *)
Definition RuneError : N := 65533.                       (* U+FFFD *)

(** The table [first] with [acceptRanges]: for the first byte of an
    encoding of several bytes, the size of the encoding and the bounds of
    its second byte. *)
Definition firstByte (s0 : N) : option (nat * N * N) :=
  if (s0 <? 194)%N then None                             (* 0x80-0xC1 *)
  else if (s0 <? 224)%N then Some (2%nat, 128%N, 191%N)  (* 0xC2-0xDF *)
  else if (s0 =? 224)%N then Some (3%nat, 160%N, 191%N)  (* 0xE0 *)
  else if (s0 =? 237)%N then Some (3%nat, 128%N, 159%N)  (* 0xED *)
  else if (s0 <? 240)%N then Some (3%nat, 128%N, 191%N)  (* 0xE1-0xEF *)
  else if (s0 =? 240)%N then Some (4%nat, 144%N, 191%N)  (* 0xF0 *)
  else if (s0 <? 244)%N then Some (4%nat, 128%N, 191%N)  (* 0xF1-0xF3 *)
  else if (s0 =? 244)%N then Some (4%nat, 128%N, 143%N)  (* 0xF4 *)
  else None.                                             (* 0xF5-0xFF *)

(** A continuation byte lies between [locb] and [hicb]. *)
Definition continuation (b : N) : bool := (128 <=? b)%N && (b <=? 191)%N.

Definition decodeRune (s : string) : N * nat :=
  match s with
  | EmptyString => (RuneError, 0%nat)
  | String c0 r =>
      let s0 := N_of_ascii c0 in
      if (s0 <? 128)%N then (s0, 1%nat)
      else
        match firstByte s0 with
        | None => (RuneError, 1%nat)
        | Some (sz, lo, hi) =>
            if (String.length s <? sz)%nat then (RuneError, 1%nat)
            else
              match r with
              | EmptyString => (RuneError, 1%nat)
              | String c1 r1 =>
                  let s1 := N_of_ascii c1 in
                  if (s1 <? lo)%N || (hi <? s1)%N then (RuneError, 1%nat)
                  else if (sz <=? 2)%nat then
                    (N.lor (N.shiftl (N.land s0 31) 6) (N.land s1 63), 2%nat)
                  else
                    match r1 with
                    | EmptyString => (RuneError, 1%nat)
                    | String c2 r2 =>
                        let s2 := N_of_ascii c2 in
                        if negb (continuation s2) then (RuneError, 1%nat)
                        else if (sz <=? 3)%nat then
                          (N.lor (N.lor (N.shiftl (N.land s0 15) 12)
                                        (N.shiftl (N.land s1 63) 6))
                                 (N.land s2 63), 3%nat)
                        else
                          match r2 with
                          | EmptyString => (RuneError, 1%nat)
                          | String c3 _ =>
                              let s3 := N_of_ascii c3 in
                              if negb (continuation s3) then (RuneError, 1%nat)
                              else
                                (N.lor (N.lor (N.lor (N.shiftl (N.land s0 7) 18)
                                                     (N.shiftl (N.land s1 63) 12))
                                              (N.shiftl (N.land s2 63) 6))
                                       (N.land s3 63), 4%nat)
                          end
                    end
              end
        end
  end.

(** [s[n:]] *)
Fixpoint dropBytes (n : nat) (s : string) : string :=
  match n, s with
  | S n, String _ s' => dropBytes n s'
  | _, _ => s
  end.

(** [getEsc]: one rune of a class, possibly escaped; the rune must be well
    encoded and the class may not end right after it. *)
Definition getEsc (chunk : string) : option (N * string) :=
  match chunk with
  | EmptyString => None
  | String c r =>
      if Ascii.eqb c "-" || Ascii.eqb c "]" then None
      else
        let chunk1 := if Ascii.eqb c "\" then r else chunk in
        if String.eqb chunk1 "" then None
        else
          let '(r0, n) := decodeRune chunk1 in
          let nchunk := dropBytes n chunk1 in
          if (N.eqb r0 RuneError && Nat.eqb n 1) || String.eqb nchunk ""
          then None
          else Some (r0, nchunk)
  end.

Definition inRange (lo r hi : N) : bool := (lo <=? r)%N && (r <=? hi)%N.

Definition startsWith (c : ascii) (s : string) : bool :=
  match s with
  | EmptyString => false
  | String c0 _ => Ascii.eqb c0 c
  end.

Definition tail (s : string) : string :=
  match s with
  | EmptyString => EmptyString
  | String _ s' => s'
  end.

(** The rune a class is tested on and the rest of the name: nothing is
    read once the match has failed. *)
Definition classArg (failed : bool) (s : string) : N * string :=
  if failed then (0%N, s)
  else let '(r, n) := decodeRune s in (r, dropBytes n s).

(** The "parse all ranges" loop of [matchChunk]. *)
Fixpoint classLoop (fuel : nat) (r : N) (chunk : string)
    (nrange : nat) (matched : bool) : res (bool * string) :=
  match fuel with
  | O => OutOfFuel
  | S fuel =>
      if startsWith "]" chunk && (0 <? nrange)%nat then Val (matched, tail chunk)
      else
        match getEsc chunk with
        | None => BadPattern
        | Some (lo, chunk1) =>
            if startsWith "-" chunk1 then
              match getEsc (tail chunk1) with
              | None => BadPattern
              | Some (hi, chunk2) =>
                  classLoop fuel r chunk2 (S nrange) (matched || inRange lo r hi)
              end
            else classLoop fuel r chunk1 (S nrange) (matched || inRange lo r lo)
        end
  end.

(** [matchChunk]: [Val (Some rest)] is [ok] with the rest of the name,
    [Val None] is a failed match of a well-formed chunk. *)
Fixpoint matchChunk_go (fuel : nat) (failed : bool) (chunk s : string)
    : res (option string) :=
  match chunk with
  | EmptyString => if failed then Val None else Val (Some s)
  | String c chunk' =>
      match fuel with
      | O => OutOfFuel
      | S fuel =>
          let failed := failed || String.eqb s "" in
          let literal (c : ascii) (rest : string) :=
            if failed then matchChunk_go fuel true rest s
            else match s with
                 | String s0 s' => matchChunk_go fuel (negb (Ascii.eqb c s0)) rest s'
                 | EmptyString => matchChunk_go fuel true rest s
                 end in
          if Ascii.eqb c "[" then
            let '(r, s1) := classArg failed s in
            let negated := startsWith "^" chunk' in
            let chunk1 := if negated then tail chunk' else chunk' in
            match classLoop (S (String.length chunk1)) r chunk1 0 false with
            | Val (m, chunk2) =>
                matchChunk_go fuel (failed || Bool.eqb m negated) chunk2 s1
            | BadPattern => BadPattern
            | OutOfFuel => OutOfFuel
            end
          else if Ascii.eqb c "?" then
            if failed then matchChunk_go fuel true chunk' s
            else matchChunk_go fuel (startsWith "/" s) chunk'
                   (dropBytes (decodeRune s).2 s)
          else if Ascii.eqb c "\" then
            match chunk' with
            | EmptyString => BadPattern
            | String c2 chunk'' => literal c2 chunk''
            end
          else literal c chunk'
      end
  end.

Definition matchChunk (chunk s : string) : res (option string) :=
  matchChunk_go (String.length chunk) false chunk s.

(** The inner loop of [Match] for a chunk after a star: try the chunk after
    skipping [i+1] bytes of the name, never skipping a separator. *)
Fixpoint starLoop (chunk : string) (lastChunk : bool) (name : string)
    : res (option string) :=
  match name with
  | EmptyString => Val None
  | String c name' =>
      if isSep c then Val None
      else
        match matchChunk chunk name' with
        | Val (Some t) =>
            if lastChunk && negb (String.eqb t "")
            then starLoop chunk lastChunk name'
            else Val (Some t)
        | Val None => starLoop chunk lastChunk name'
        | BadPattern => BadPattern
        | OutOfFuel => OutOfFuel
        end
  end.

(** The check of the rest of the pattern before "no match" is returned. *)
Fixpoint checkRest (fuel : nat) (pattern : string) : res bool :=
  match pattern with
  | EmptyString => Val false
  | _ =>
      match fuel with
      | O => OutOfFuel
      | S fuel =>
          let '(_, chunk, rest) := scanChunk pattern in
          match matchChunk chunk "" with
          | Val _ => checkRest fuel rest
          | BadPattern => BadPattern
          | OutOfFuel => OutOfFuel
          end
      end
  end.

Fixpoint Match_go (fuel : nat) (pattern name : string) : res bool :=
  match pattern with
  | EmptyString => Val (String.eqb name "")
  | _ =>
      match fuel with
      | O => OutOfFuel
      | S fuel =>
          let '(star, chunk, rest) := scanChunk pattern in
          if star && String.eqb chunk "" then Val (negb (Contains name "/"))
          else
            let lastChunk := String.eqb rest "" in
            match matchChunk chunk name with
            | BadPattern => BadPattern
            | OutOfFuel => OutOfFuel
            | Val (Some t) =>
                if String.eqb t "" || negb lastChunk then Match_go fuel rest t
                else if star then
                  match starLoop chunk lastChunk name with
                  | Val (Some t) => Match_go fuel rest t
                  | Val None => checkRest fuel rest
                  | BadPattern => BadPattern
                  | OutOfFuel => OutOfFuel
                  end
                else checkRest fuel rest
            | Val None =>
                if star then
                  match starLoop chunk lastChunk name with
                  | Val (Some t) => Match_go fuel rest t
                  | Val None => checkRest fuel rest
                  | BadPattern => BadPattern
                  | OutOfFuel => OutOfFuel
                  end
                else checkRest fuel rest
            end
      end
  end.

(** [filepath.Match pattern name]: [Some matched] when [err == nil], [None]
    when the pattern is malformed ([ErrBadPattern]).  The fuel is enough for
    every pattern ([Match_go_total]). *)
Definition filepath_Match (pattern name : string) : option bool :=
  match Match_go (String.length pattern) pattern name with
  | Val b => Some b
  | _ => None
  end.

(** ** The program

    [filepath.Match] and the tokenizer of [tiktoken-go] are libraries the
    program links against.  The development is parametric in both: every
    theorem of the section holds for whatever matcher and encoder are linked
    in, [filepath_Match] above being the instance used for concrete runs. *)

Definition nl : string := String "010" EmptyString.

(** Go's [int] arithmetic (64 bits, two's complement). *)
Definition wrap_int (z : Z) : Z := (z + 2 ^ 63) mod 2 ^ 64 - 2 ^ 63.
Definition add_int (a b : Z) : Z := wrap_int (a + b).

Definition maxTotalTokens : Z := 50000.
Definition maxFileSize : Z := 1 * 1024 * 1024.
Definition maxGoroutines : nat := 10.

(** *** The file system seen by the program *)

(** A directory tree as [filepath.WalkDir] enumerates it: the entries of a
    directory in the order [os.ReadDir] returns them, and the error
    [os.ReadDir] returned with them, if any. *)
#[local] Set Warnings "-register-all".
Inductive node : Type :=
  | File (name : string)
  | Dir (name : string) (entries : list node) (readErr : option string).

Definition nodeName (d : node) : string :=
  match d with File name => name | Dir name _ _ => name end.

(** The result of [os.Lstat] on the root of the walk. *)
Inductive lstat : Type :=
  | LstatErr (msg : string)
  | LstatOk (d : node).

(** What [os.Stat], [os.Open] and [Read] answer for one path. *)
Record fileData : Type := {
  f_size : Z;                   (* info.Size() *)
  f_open : option string;       (* the error of os.Open, if it fails *)
  f_read : option string;       (* the error of Read other than io.EOF *)
  f_bytes : string              (* the content *)
}.

Inductive event : Type :=
  | EvStat (path : string)
  | EvOpen (path : string)
  | EvRead (path : string) (size : nat)
  | EvScan (path : string)
  | EvClose (path : string)
  | EvPrint (text : string).

(** A Go result [(value, err)]. *)
Inductive outcome (A : Type) : Type :=
  | Ok (a : A)
  | Fail (err : string).
Arguments Ok {A} a.
Arguments Fail {A} err.

(** Effectful code returns its value with the trace of what it did. *)
Definition io (A : Type) : Type := A * list event.
#[export] Instance io_ret : MRet io := λ A a, (a, []).
#[export] Instance io_bind : MBind io :=
  λ A B f m, let '(b, t) := f m.1 in (b, m.2 ++ t).
Definition emit (e : event) : io unit := (tt, [e]).

Definition prints (t : list event) : list string :=
  omap (λ e, match e with EvPrint text => Some text | _ => None end) t.

(** The errors a [WalkDirFunc] returns. *)
Inductive error : Type :=
  | SkipDir
  | IOError (msg : string).

(** What [WalkDir] hands to the callback: an entry with [err == nil], or an
    error (with the entry, or with [nil] when [Lstat] of the root failed). *)
Inductive walkArg : Type :=
  | Entry (isDir : bool)
  | Failure (err : error).

(** [filepath.Join dir name] for the paths of a walk rooted at ["."]: the
    result is cleaned, so the children of the root carry no ["./"]. *)
Definition Join (dir name : string) : string :=
  if String.eqb dir "." then name else dir +:+ "/" +:+ name.

Section WalkDir.
Context {S : Type}.
Variable fn : string → walkArg → S → S * option error.

(** The loop over the entries of a directory in [walkDir]. *)
Definition walkEntries (walk : string → node → S → S * option error)
    (path : string) : list node → S → S * option error :=
  fix go (dirs : list node) (st : S) : S * option error :=
    match dirs with
    | [] => (st, None)
    | d1 :: dirs' =>
        match walk (Join path (nodeName d1)) d1 st with
        | (st, Some SkipDir) => (st, None)
        | (st, Some err) => (st, Some err)
        | (st, None) => go dirs' st
        end
    end.

Fixpoint walkDir (path : string) (d : node) (st : S) : S * option error :=
  match d with
  | File _ => fn path (Entry false) st
  | Dir _ entries readErr =>
      match fn path (Entry true) st with
      | (st, Some SkipDir) => (st, None)
      | (st, Some err) => (st, Some err)
      | (st, None) =>
          match readErr with
          | Some msg =>
              match fn path (Failure (IOError msg)) st with
              | (st, Some SkipDir) => (st, None)
              | (st, Some err) => (st, Some err)
              | (st, None) => walkEntries walkDir path entries st
              end
          | None => walkEntries walkDir path entries st
          end
      end
  end.

Definition WalkDir (root : string) (info : lstat) (st : S) : S * option error :=
  let '(st, err) :=
    match info with
    | LstatErr msg => fn root (Failure (IOError msg)) st
    | LstatOk d => walkDir root d st
    end in
  match err with
  | Some SkipDir => (st, None)
  | _ => (st, err)
  end.
End WalkDir.

(** *** [os] and [bufio] *)

Definition os_Stat (fs : gmap string fileData) (path : string) : io (outcome Z) :=
  emit (EvStat path);;
  mret (match fs !! path with
        | None => Fail ("stat " +:+ path +:+ ": no such file or directory")
        | Some f => Ok (f_size f)
        end).

Definition os_Open (fs : gmap string fileData) (path : string)
    : io (outcome fileData) :=
  emit (EvOpen path);;
  mret (match fs !! path with
        | None => Fail ("open " +:+ path +:+ ": no such file or directory")
        | Some f => match f_open f with Some err => Fail err | None => Ok f end
        end).

Fixpoint takeBytes (n : nat) (s : string) : string :=
  match n, s with
  | S n, String c s' => String c (takeBytes n s')
  | _, _ => EmptyString
  end.

(** [file.Read(buf)] on a freshly opened file: the first [len(buf)] bytes of
    the content ([io.EOF] on an empty file is not an error for the caller). *)
Definition file_Read (path : string) (f : fileData) (size : nat)
    : io (outcome string) :=
  emit (EvRead path size);;
  mret (match f_read f with
        | Some err => Fail err
        | None => Ok (takeBytes size (f_bytes f))
        end).

Fixpoint hasNUL (buf : string) : bool :=
  match buf with
  | EmptyString => false
  | String c buf' => Ascii.eqb c zero || hasNUL buf'
  end.

(** The lines [bufio.Scanner] yields with the default split function
    [ScanLines]: the text between newlines, a last line without newline
    included when it is not empty. *)
Fixpoint rawLines (cur data : string) : list string :=
  match data with
  | EmptyString => if String.eqb cur "" then [] else [cur]
  | String c data' =>
      if Ascii.eqb c "010" then cur :: rawLines "" data'
      else rawLines (cur +:+ String c "") data'
  end.

(** [dropCR]: one trailing carriage return is removed from a line. *)
Fixpoint dropCR (line : string) : string :=
  match line with
  | EmptyString => EmptyString
  | String c EmptyString => if Ascii.eqb c "013" then EmptyString else line
  | String c r => String c (dropCR r)
  end.

Definition maxScanTokenSize : Z := 64 * 1024.

(** [scanner.Scan()] until it returns false, then [scanner.Err()]: a line
    that does not fit the buffer is [bufio.ErrTooLong]. *)
Definition scanLines (data : string) : outcome (list string) :=
  let lines := rawLines "" data in
  if forallb (λ l, Z.of_nat (String.length l) <? maxScanTokenSize) lines
  then Ok (dropCR <$> lines)
  else Fail "bufio.Scanner: token too long".

(** ** The functions of [collect.go] *)

Section Collect.
(** [filepath.Match]: [None] is [ErrBadPattern]. *)
Variable Match : string → string → option bool.
(** [encoder.Encode(text, nil, nil)] of the tokenizer. *)
Variable Encode : string → list Z.

Fixpoint isIgnored (path : string) (ignorePatterns : list string) : bool :=
  match ignorePatterns with
  | [] => false
  | pattern :: rest =>
      match Match pattern (Base path) with
      | None => isIgnored path rest
      | Some matched =>
          if matched || Contains path pattern then true
          else isIgnored path rest
      end
  end.

(** The loop of [isIncluded]. *)
Fixpoint anyIncluded (path : string) (includePatterns : list string) : bool :=
  match includePatterns with
  | [] => false
  | pattern :: rest =>
      match Match pattern (Base path) with
      | None => anyIncluded path rest
      | Some matched =>
          if matched || HasSuffix path pattern then true
          else anyIncluded path rest
      end
  end.

Definition isIncluded (path : string) (includePatterns : list string) : bool :=
  if (length includePatterns =? 0)%nat then true
  else anyIncluded path includePatterns.

Definition isBinaryFile (fs : gmap string fileData) (path : string)
    : io (outcome bool) :=
  file ← os_Open fs path;
  match file with
  | Fail err => mret (Fail err)
  | Ok file =>
      r ← file_Read path file (Z.to_nat 8000);
      emit (EvClose path);;
      mret (match r with
            | Fail err => Fail err
            | Ok buf => Ok (hasNUL buf)
            end)
  end.

Definition countTokens (text : string) : Z :=
  let tokens := Encode text in
  Z.of_nat (length tokens).

(** [processFile(path, rootDir)] with [rootDir = "."], as [main] calls it:
    the paths of the walk are relative to ["."] already, so that
    [filepath.Rel(rootDir, path)] is [path]. *)
Definition processFile (fs : gmap string fileData) (path : string)
    : io (outcome (string * Z)) :=
  info ← os_Stat fs path;
  match info with
  | Fail err => mret (Fail ("Error stating file " +:+ path +:+ ": " +:+ err))
  | Ok size =>
      let relativePath := path in
      if maxFileSize <? size then
        emit (EvPrint ("Skipping large file (>1MB): " +:+ relativePath +:+ nl));;
        mret (Ok ("", 0))
      else
        isBinary ← isBinaryFile fs path;
        match isBinary with
        | Fail err =>
            mret (Fail ("Error checking if file is binary: " +:+ err))
        | Ok true =>
            emit (EvPrint ("Skipping binary file: " +:+ relativePath +:+ nl));;
            mret (Ok ("", 0))
        | Ok false =>
            file ← os_Open fs path;
            match file with
            | Fail err =>
                mret (Fail ("Error opening file " +:+ relativePath +:+ ": " +:+ err))
            | Ok file =>
                emit (EvScan path);;
                emit (EvClose path);;
                match scanLines (f_bytes file) with
                | Fail err =>
                    mret (Fail ("Error reading file " +:+ relativePath +:+ ": " +:+ err))
                | Ok lines =>
                    let fileContent :=
                      "File: " +:+ relativePath +:+ nl
                      +:+ foldr (λ line acc, line +:+ nl +:+ acc) "" lines
                      +:+ nl in
                    let tokenCount := countTokens fileContent in
                    mret (Ok (fileContent, tokenCount))
                end
            end
        end
  end.

Definition buildFileTree (files : list string) : string :=
  foldr (λ path acc, path +:+ nl +:+ acc) "" files.

(** *** Discovery: the walk of [collectFilesContent] (lines 134-161) *)

Definition walkFn (includePatterns ignorePatterns : list string)
    (path : string) (d : walkArg) (files : list string)
    : list string * option error :=
  match d with
  | Failure err => (files, Some err)
  | Entry isDir =>
      let relativePath := path in
      if isDir then
        if isIgnored relativePath ignorePatterns then (files, Some SkipDir)
        else (files, None)
      else if isIgnored relativePath ignorePatterns then (files, None)
      else if negb (isIncluded relativePath includePatterns) then (files, None)
      else (files ++ [path], None)
  end.

Definition errorString (err : error) : string :=
  match err with
  | SkipDir => "skip this directory"
  | IOError msg => msg
  end.

(** The candidate list and what is printed when the walk returns an error. *)
Definition discover (includePatterns ignorePatterns : list string)
    (root : lstat) : list string * list string :=
  let '(files, err) :=
    WalkDir (walkFn includePatterns ignorePatterns) "." root [] in
  (files,
   match err with
   | Some err => ["Error: " +:+ errorString err +:+ nl]
   | None => []
   end).

(** *** Processing: the worker pool of [collectFilesContent] (lines 163-205)

    The goroutines are interleaved one statement at a time.  A thread is
    at a program point; a step of a thread is a function of the shared
    variables, [None] when the thread is blocked there. *)

Record shared : Type := {
  totalTokens : Z;                (* var totalTokens int *)
  collectedContent : string;      (* collectedContent strings.Builder *)
  mu : bool;                      (* mu is locked *)
  sem : nat;                      (* len(sem) *)
  wg : nat;                       (* the counter of wg *)
  stdout : list string
}.

Definition set_totalTokens (v : Z) (sh : shared) : shared :=
  {| totalTokens := v; collectedContent := collectedContent sh; mu := mu sh;
     sem := sem sh; wg := wg sh; stdout := stdout sh |}.
Definition set_collectedContent (v : string) (sh : shared) : shared :=
  {| totalTokens := totalTokens sh; collectedContent := v; mu := mu sh;
     sem := sem sh; wg := wg sh; stdout := stdout sh |}.
Definition set_mu (v : bool) (sh : shared) : shared :=
  {| totalTokens := totalTokens sh; collectedContent := collectedContent sh;
     mu := v; sem := sem sh; wg := wg sh; stdout := stdout sh |}.
Definition set_sem (v : nat) (sh : shared) : shared :=
  {| totalTokens := totalTokens sh; collectedContent := collectedContent sh;
     mu := mu sh; sem := v; wg := wg sh; stdout := stdout sh |}.
Definition set_wg (v : nat) (sh : shared) : shared :=
  {| totalTokens := totalTokens sh; collectedContent := collectedContent sh;
     mu := mu sh; sem := sem sh; wg := v; stdout := stdout sh |}.
Definition print (lines : list string) (sh : shared) : shared :=
  {| totalTokens := totalTokens sh; collectedContent := collectedContent sh;
     mu := mu sh; sem := sem sh; wg := wg sh; stdout := stdout sh ++ lines |}.

(** The program points of the goroutine of lines 180-198. *)
Inductive wpc : Type :=
  | WProcess                                  (* 184: processFile *)
  | WLock (content : string) (tokenCount : Z) (* 190: mu.Lock() *)
  | WCheck (content : string) (tokenCount : Z)(* 191: the budget test *)
  | WWrite (content : string) (tokenCount : Z)(* 192: WriteString *)
  | WIncr (tokenCount : Z)                    (* 193: totalTokens += *)
  | WSkip                                     (* 195: Printf *)
  | WUnlock                                   (* 197: mu.Unlock() *)
  | WRelease                                  (* deferred: <-sem *)
  | WDone.                                    (* deferred: wg.Done() *)

(** The program points of the dispatching loop, lines 169-205. *)
Inductive mpc : Type :=
  | MLoop (files : list string)                 (* 169: next file, 170: mu.Lock() *)
  | MCheck (path : string) (files : list string)  (* 171 *)
  | MBreak                                      (* 172-174 *)
  | MUnlock (path : string) (files : list string) (* 176 *)
  | MAdd (path : string) (files : list string)    (* 178: wg.Add(1) *)
  | MSem (path : string) (files : list string)    (* 179: sem <- *)
  | MGo (path : string) (files : list string)     (* 180: go func *)
  | MWait                                       (* 201: wg.Wait() *)
  | MDone.                                      (* 205: returned *)

Variable fs : gmap string fileData.

Definition wstep (path : string) (pc : wpc) (sh : shared)
    : option (shared * option wpc) :=
  match pc with
  | WProcess =>
      match processFile fs path with
      | (Fail err, t) =>
          Some (print (prints t ++
                       ["Error processing file " +:+ path +:+ ": " +:+ err +:+ nl]) sh,
                Some WRelease)
      | (Ok (content, tokenCount), t) =>
          Some (print (prints t) sh, Some (WLock content tokenCount))
      end
  | WLock content tokenCount =>
      if mu sh then None
      else Some (set_mu true sh, Some (WCheck content tokenCount))
  | WCheck content tokenCount =>
      if add_int (totalTokens sh) tokenCount <=? maxTotalTokens
      then Some (sh, Some (WWrite content tokenCount))
      else Some (sh, Some WSkip)
  | WWrite content tokenCount =>
      Some (set_collectedContent (collectedContent sh +:+ content) sh,
            Some (WIncr tokenCount))
  | WIncr tokenCount =>
      Some (set_totalTokens (add_int (totalTokens sh) tokenCount) sh,
            Some WUnlock)
  | WSkip =>
      Some (print ["Skipping file " +:+ path +:+ " to stay within token limit." +:+ nl] sh,
            Some WUnlock)
  | WUnlock => Some (set_mu false sh, Some WRelease)
  | WRelease =>
      match sem sh with
      | O => None
      | S k => Some (set_sem k sh, Some WDone)
      end
  | WDone =>
      match wg sh with
      | O => None
      | S k => Some (set_wg k sh, None)
      end
  end.

(** A step of the dispatching loop: the new shared state, the next program
    point and the goroutine it starts, if any. *)
Definition mstep (pc : mpc) (sh : shared)
    : option (shared * mpc * list (string * wpc)) :=
  match pc with
  | MLoop [] => Some (sh, MWait, [])
  | MLoop (path :: files) =>
      if mu sh then None else Some (set_mu true sh, MCheck path files, [])
  | MCheck path files =>
      if maxTotalTokens <=? totalTokens sh then Some (sh, MBreak, [])
      else Some (sh, MUnlock path files, [])
  | MBreak =>
      Some (print ["Reached maximum token limit." +:+ nl] (set_mu false sh),
            MWait, [])
  | MUnlock path files => Some (set_mu false sh, MAdd path files, [])
  | MAdd path files => Some (set_wg (S (wg sh)) sh, MSem path files, [])
  | MSem path files =>
      if (sem sh <? maxGoroutines)%nat
      then Some (set_sem (S (sem sh)) sh, MGo path files, [])
      else None
  | MGo path files => Some (sh, MLoop files, [(path, WProcess)])
  | MWait =>
      match wg sh with
      | O => Some (sh, MDone, [])
      | S _ => None
      end
  | MDone => None
  end.

Record state : Type := {
  sh : shared;
  main : mpc;
  workers : list (string * wpc)     (* the goroutines that have not returned *)
}.

Inductive tid : Type :=
  | Main
  | Worker (i : nat).

Definition step_thread (t : tid) (s : state) : option state :=
  match t with
  | Main =>
      '(sh', pc', new) ← mstep (main s) (sh s);
      Some {| sh := sh'; main := pc'; workers := workers s ++ new |}
  | Worker i =>
      '(path, pc) ← workers s !! i;
      '(sh', next) ← wstep path pc (sh s);
      Some {| sh := sh'; main := main s;
              workers := match next with
                         | Some pc' => <[i := (path, pc')]> (workers s)
                         | None => delete i (workers s)
                         end |}
  end.

Definition step (s s' : state) : Prop := ∃ t, step_thread t s = Some s'.

(** A schedule is the list of the threads that move, in order. *)
Fixpoint run (schedule : list tid) (s : state) : option state :=
  match schedule with
  | [] => Some s
  | t :: schedule => s' ← step_thread t s; run schedule s'
  end.

(** The state after the walk, [files] being the candidate list; the
    program calls [collectFilesContent] once, with [totalTokens] at its
    initial value. *)
Definition init (files : list string) : state :=
  {| sh := {| totalTokens := 0; collectedContent := ""; mu := false;
              sem := 0; wg := 0; stdout := [] |};
     main := MLoop files;
     workers := [] |}.

Definition reachable (files : list string) (s : state) : Prop :=
  rtc step (init files) s.

(** What [collectFilesContent] returns when the loop has reached line 205. *)
Definition returned (files : list string) (s : state) : option (string * string) :=
  match main s with
  | MDone => Some (buildFileTree files, collectedContent (sh s))
  | _ => None
  end.

(** [collectFilesContent(".", includePatterns, ignorePatterns)] under a
    schedule of its goroutines: the walk, the worker pool, the two strings
    returned. *)
Definition collectFilesContent (includePatterns ignorePatterns : list string)
    (root : lstat) (schedule : list tid) : option (string * string) :=
  let files := (discover includePatterns ignorePatterns root).1 in
  s ← run schedule (init files);
  returned files s.

(** *** [main]: the patterns handed to [collectFilesContent] *)

(** [strings.Split(s, sep)] for a separator of one byte. *)
Fixpoint splitOn (sep : ascii) (cur s : string) : list string :=
  match s with
  | EmptyString => [cur]
  | String c s' =>
      if Ascii.eqb c sep then cur :: splitOn sep "" s'
      else splitOn sep (cur +:+ String c "") s'
  end.

Definition Split (s : string) (sep : ascii) : list string := splitOn sep "" s.

(** The value of [-include] or [-ignore] as a list of patterns
    (lines 266-274). *)
Definition flagPatterns (flag : string) : list string :=
  if String.eqb flag "" then [] else Split flag ",".

Definition defaultIgnorePatterns : list string :=
  [".git"; ".svn"; ".hg";
   "node_modules"; "venv"; "env"; "__pycache__"; "target"; "bin"; "obj";
   "build"; "dist"; "out";
   ".idea"; ".vscode"; ".settings";
   "*.log"; "*.tmp"; "*.swp";
   "*.exe"; "*.dll"; "*.so"; "*.bin"; "*.class"; "*.jar"; "*.war";
   "*.jpg"; "*.jpeg"; "*.png"; "*.gif"; "*.mp3"; "*.mp4";
   "*.zip"; "*.tar"; "*.gz"; "*.7z"; "*.rar";
   "_build"; "site"].

(** [strings.TrimSpace] *)
Variable TrimSpace : string → string.

(** [parseGitignore(".")]: [filepath.Join(".", ".gitignore")] is
    [".gitignore"]; a file that does not exist is no error. *)
Definition parseGitignore : outcome (list string) :=
  match fs !! ".gitignore" with
  | None => Ok []
  | Some file =>
      match f_open file with
      | Some err => Fail err
      | None =>
          match scanLines (f_bytes file) with
          | Fail err => Fail err
          | Ok lines =>
              Ok (List.filter
                    (λ line, negb (String.eqb line "" || HasPrefix line "#"))
                    (TrimSpace <$> lines))
          end
      end
  end.

(** Lines 266-299 of [main]: the include patterns, the exclude patterns and
    what is printed on the way. *)
Definition mainPatterns (includeFlag ignoreFlag : string) (gitignoreFlag : bool)
    : list string * list string * list string :=
  let includePatterns := flagPatterns includeFlag in
  let userIgnorePatterns := flagPatterns ignoreFlag in
  let ignorePatterns := defaultIgnorePatterns ++ userIgnorePatterns in
  if gitignoreFlag then
    match parseGitignore with
    | Fail err =>
        (includePatterns, ignorePatterns,
         ["Error parsing .gitignore: " +:+ err +:+ nl])
    | Ok gitignorePatterns =>
        (includePatterns, ignorePatterns ++ gitignorePatterns, [])
    end
  else (includePatterns, ignorePatterns, []).

(** The candidate list of a run of the program. *)
Definition mainCandidates (includeFlag ignoreFlag : string)
    (gitignoreFlag : bool) (root : lstat) : list string :=
  let '(includePatterns, ignorePatterns, _) :=
    mainPatterns includeFlag ignoreFlag gitignoreFlag in
  (discover includePatterns ignorePatterns root).1.

(** *** Definitions used to state the properties *)

(** The matching rule as the specification words it: a glob match of the
    base name, or a literal substring of the path, or, for inclusion only,
    a literal suffix of the path. *)
Definition spec_matches (inclusion : bool) (path pattern : string) : bool :=
  bool_decide (Match pattern (Base path) = Some true)
  || Contains path pattern
  || (inclusion && HasSuffix path pattern).

Definition spec_isIgnored (path : string) (patterns : list string) : bool :=
  existsb (spec_matches false path) patterns.

Definition spec_isIncluded (path : string) (patterns : list string) : bool :=
  bool_decide (patterns = []) || existsb (spec_matches true path) patterns.

(** The callback of the walk, with the paths it is called on recorded. *)
Definition traced (includePatterns ignorePatterns : list string)
    (path : string) (d : walkArg) (st : list string * list string)
    : (list string * list string) * option error :=
  let '(files, err) := walkFn includePatterns ignorePatterns path d st.1 in
  ((files, st.2 ++ [path]), err).

(** What [processFile] returns for a path, without the trace. *)
Definition processed (path content : string) (tokenCount : Z) : Prop :=
  (processFile fs path).1 = Ok (content, tokenCount).

Definition formatted (path : string) : string :=
  match (processFile fs path).1 with
  | Ok (content, _) => content
  | Fail _ => ""
  end.

Definition tokensOf (path : string) : Z :=
  match (processFile fs path).1 with
  | Ok (_, tokenCount) => tokenCount
  | Fail _ => 0
  end.

(** The formatted texts of a list of files, one after the other, and the
    sum of their token counts as [totalTokens += tokenCount] computes it. *)
Definition texts (paths : list string) : string :=
  foldr (λ path acc, formatted path +:+ acc) "" paths.

Definition tokenSum (paths : list string) : Z :=
  foldl (λ total path, add_int total (tokensOf path)) 0 paths.

(** The largest token count among the files of the goroutines in flight. *)
Definition inflightMax (s : state) : Z :=
  foldr (λ w m, Z.max (tokensOf w.1) m) 0 (workers s).

(** Threads between [mu.Lock()] and [mu.Unlock()]. *)
Definition wcrit (w : string * wpc) : nat :=
  match w.2 with
  | WCheck _ _ | WWrite _ _ | WIncr _ | WSkip | WUnlock => 1
  | _ => 0
  end.

Definition mcrit (pc : mpc) : nat :=
  match pc with
  | MCheck _ _ | MBreak | MUnlock _ _ => 1
  | _ => 0
  end.

Definition holders (s : state) : nat :=
  mcrit (main s) + sum_list_with wcrit (workers s).

(** What a goroutine knows at its program point: the result of
    [processFile] it carries, and, once the budget test has passed, that the
    test still holds. *)
Definition wok (total : Z) (w : string * wpc) : Prop :=
  match w.2 with
  | WLock content n | WCheck content n => processed w.1 content n
  | WWrite content n =>
      processed w.1 content n ∧ add_int total n ≤ maxTotalTokens
  | WIncr n =>
      (∃ content, processed w.1 content n) ∧ add_int total n ≤ maxTotalTokens
  | _ => True
  end.

(** The files not yet written: those the loop still has to dispatch and
    those of the goroutines before line 192. *)
Definition mpending (pc : mpc) : list string :=
  match pc with
  | MLoop files => files
  | MCheck path files | MUnlock path files | MAdd path files
  | MSem path files | MGo path files => path :: files
  | MBreak | MWait | MDone => []
  end.

Definition wpending (w : string * wpc) : list string :=
  match w.2 with
  | WProcess | WLock _ _ | WCheck _ _ | WWrite _ _ => [w.1]
  | _ => []
  end.

(** The file written but not yet counted: the goroutine is at line 193. *)
Definition uncounted (w : string * wpc) : list string :=
  match w.2 with
  | WIncr _ => [w.1]
  | _ => []
  end.

(** The slots of [sem] in use: one per goroutine that has not run its
    deferred [<-sem], one for the goroutine about to be started. *)
Definition wslot (w : string * wpc) : nat :=
  match w.2 with
  | WDone => 0
  | _ => 1
  end.

Definition mslot (pc : mpc) : nat :=
  match pc with
  | MGo _ _ => 1
  | _ => 0
  end.

(** The goroutine announced to [wg] and not started yet. *)
Definition mspawning (pc : mpc) : nat :=
  match pc with
  | MSem _ _ | MGo _ _ => 1
  | _ => 0
  end.

Record Inv (files : list string) (s : state) : Prop := {
  inv_mutex : holders s = if mu (sh s) then 1%nat else 0%nat;
  inv_workers : Forall (wok (totalTokens (sh s))) (workers s);
  inv_budget : totalTokens (sh s) ≤ maxTotalTokens;
  inv_wg : wg (sh s) = (length (workers s) + mspawning (main s))%nat;
  inv_done : main s = MDone → workers s = [];
  inv_content :
    ∃ counted,
      collectedContent (sh s) = texts (counted ++ (workers s ≫= uncounted))
      ∧ totalTokens (sh s) = tokenSum counted
      ∧ Forall (λ path, ∃ content n, processed path content n)
               (counted ++ (workers s ≫= uncounted))
      ∧ (∀ k, tokenSum (take k counted) ≤ maxTotalTokens)
      ∧ (counted ++ (workers s ≫= uncounted)) ++ mpending (main s)
          ++ (workers s ≫= wpending) ⊆+ files
}.

(** The two steps that merge a processed file: line 192 appends its text,
    line 193 adds its token count. *)
Definition merging (s s' : state) (path content : string) (n : Z) : Prop :=
  ∃ ws1 ws2 pc pc',
    workers s = ws1 ++ (path, pc) :: ws2
    ∧ workers s' = ws1 ++ (path, pc') :: ws2
    ∧ ((pc = WWrite content n ∧ pc' = WIncr n
        ∧ collectedContent (sh s') = collectedContent (sh s) +:+ content
        ∧ totalTokens (sh s') = totalTokens (sh s))
       ∨ (pc = WIncr n ∧ pc' = WUnlock
          ∧ collectedContent (sh s') = collectedContent (sh s)
          ∧ totalTokens (sh s') = add_int (totalTokens (sh s)) n)).

(** The token counts of the candidate files are such that
    [totalTokens + tokenCount] cannot wrap around.  A token count is the
    length of a slice of 8-byte integers, which is below [2 ^ 61]. *)
Definition tokens_fit (files : list string) : Prop :=
  Forall (λ path, tokensOf path ≤ 2 ^ 63 - 1 - maxTotalTokens) files.

(** The tree in which every directory that matches an exclude pattern has
    been emptied. *)
Fixpoint prune (ignorePatterns : list string) (path : string) (d : node)
    : node :=
  match d with
  | File name => File name
  | Dir name entries readErr =>
      if isIgnored path ignorePatterns then Dir name [] None
      else Dir name
             ((λ e, prune ignorePatterns (Join path (nodeName e)) e) <$> entries)
             readErr
  end.

(** The statements a thread still has to execute: a goroutine runs straight
    to its end, the loop takes six statements to start the goroutine of the
    next file. *)
Definition wremaining (w : string * wpc) : nat :=
  match w.2 with
  | WProcess => 8
  | WLock _ _ => 7
  | WCheck _ _ => 6
  | WWrite _ _ => 5
  | WIncr _ => 4
  | WSkip => 4
  | WUnlock => 3
  | WRelease => 2
  | WDone => 1
  end.

Definition mremaining (pc : mpc) : nat :=
  match pc with
  | MLoop files => 2 + 14 * length files
  | MCheck _ files => 15 + 14 * length files
  | MUnlock _ files => 14 + 14 * length files
  | MAdd _ files => 13 + 14 * length files
  | MSem _ files => 12 + 14 * length files
  | MGo _ files => 11 + 14 * length files
  | MBreak => 2
  | MWait => 1
  | MDone => 0
  end.

Definition remaining (s : state) : nat :=
  mremaining (main s) + sum_list_with wremaining (workers s).

(** The paths of the files of a tree, depth first, in the order of the
    entries; and whether every directory of the tree could be read. *)
Fixpoint allFiles (path : string) (d : node) : list string :=
  match d with
  | File _ => [path]
  | Dir _ entries _ =>
      (fix go (dirs : list node) : list string :=
         match dirs with
         | [] => []
         | d1 :: dirs' => allFiles (Join path (nodeName d1)) d1 ++ go dirs'
         end) entries
  end.

Fixpoint readable (d : node) : bool :=
  match d with
  | File _ => true
  | Dir _ entries readErr =>
      match readErr with
      | Some _ => false
      | None => forallb readable entries
      end
  end.

(** The test a file passes to become a candidate. *)
Definition kept (includePatterns ignorePatterns : list string)
    (path : string) : bool :=
  negb (isIgnored path ignorePatterns) && isIncluded path includePatterns.

(** The byte [c] occurs in [s]. *)
Fixpoint hasByte (c : ascii) (s : string) : bool :=
  match s with
  | EmptyString => false
  | String c0 s' => Ascii.eqb c0 c || hasByte c s'
  end.

(** The text is empty or its last byte is a newline. *)
Fixpoint lfTerminated (s : string) : bool :=
  match s with
  | EmptyString => true
  | String c EmptyString => Ascii.eqb c "010"
  | String _ s' => lfTerminated s'
  end.

(** What a statement of a goroutine decides about its file: the test of
    line 191 passes or fails, or [processFile] has returned an error
    (line 185). *)
Inductive fate : Type :=
  | Passed
  | Refused
  | Errored.

Definition fate_eqb (a b : fate) : bool :=
  match a, b with
  | Passed, Passed | Refused, Refused | Errored, Errored => true
  | _, _ => false
  end.

Definition decided (t : tid) (s : state) : list (string * fate) :=
  match t with
  | Main => []
  | Worker i =>
      match workers s !! i with
      | Some (path, WProcess) =>
          match (processFile fs path).1 with
          | Fail _ => [(path, Errored)]
          | Ok _ => []
          end
      | Some (path, WCheck _ tokenCount) =>
          if add_int (totalTokens (sh s)) tokenCount <=? maxTotalTokens
          then [(path, Passed)]
          else [(path, Refused)]
      | _ => []
      end
  end.

(** The decisions taken along a schedule, in the order of the run. *)
Fixpoint decisions (schedule : list tid) (s : state) : list (string * fate) :=
  match schedule with
  | [] => []
  | t :: schedule =>
      match step_thread t s with
      | Some s' => decided t s ++ decisions schedule s'
      | None => []
      end
  end.

Definition withFate (f : fate) (log : list (string * fate)) : list string :=
  log ≫= (λ d, if fate_eqb d.2 f then [d.1] else []).

(** The budget-accepted files of a run of [collectFilesContent]: those for
    which the test of line 191 passed, in the order of the tests; the files
    for which it failed; the files [processFile] failed on. *)
Definition acceptedBy (schedule : list tid) (files : list string) : list string :=
  withFate Passed (decisions schedule (init files)).

Definition rejectedBy (schedule : list tid) (files : list string) : list string :=
  withFate Refused (decisions schedule (init files)).

Definition failedBy (schedule : list tid) (files : list string) : list string :=
  withFate Errored (decisions schedule (init files)).

(** The test of line 191 fails for [path] when [totalTokens] is the sum
    over the files [merged] before it; the loop leaves at line 172 when that
    sum has reached the limit. *)
Definition rejectedAt (accepted : list string) (path : string) : Prop :=
  (∃ content n, processed path content n)
  ∧ ∃ merged, merged `prefix_of` accepted
      ∧ maxTotalTokens < add_int (tokenSum merged) (tokensOf path).

Definition failedFile (path : string) : Prop :=
  ∃ err, (processFile fs path).1 = Fail err.

Definition brokeAt (accepted : list string) : Prop :=
  ∃ merged, merged `prefix_of` accepted ∧ maxTotalTokens ≤ tokenSum merged.

(** The file whose test has passed and whose text is not yet written: the
    goroutine is at line 192. *)
Definition writing (w : string * wpc) : list string :=
  match w.2 with
  | WWrite _ _ => [w.1]
  | _ => []
  end.

(** The books of a run whose decisions so far are [log].  The candidate
    list is the files handed to goroutines, then the files the loop still
    holds, then the files it dropped at the [break]; the files handed out
    are the merged ones, the refused ones, the failed ones and those of the
    goroutines before line 193. *)
Definition Books (files : list string) (s : state) (log : list (string * fate))
    : Prop :=
  ∃ counted started dropped,
    collectedContent (sh s) = texts (counted ++ (workers s ≫= uncounted))
    ∧ totalTokens (sh s) = tokenSum counted
    ∧ Forall (λ path, ∃ content n, processed path content n)
             (counted ++ (workers s ≫= uncounted))
    ∧ (∀ k, tokenSum (take k counted) ≤ maxTotalTokens)
    ∧ files = started ++ mpending (main s) ++ dropped
    ∧ started ≡ₚ (counted ++ (workers s ≫= uncounted))
                   ++ withFate Refused log ++ withFate Errored log
                   ++ (workers s ≫= wpending)
    ∧ withFate Passed log
        = counted ++ (workers s ≫= uncounted) ++ (workers s ≫= writing)
    ∧ Forall (rejectedAt counted) (withFate Refused log)
    ∧ Forall failedFile (withFate Errored log)
    ∧ (dropped ≠ [] → mpending (main s) = [] ∧ brokeAt counted).

(** The sum of the token counts of a list of files, as a number. *)
Definition plainSum (paths : list string) : Z :=
  foldr (λ path acc, tokensOf path + acc) 0 paths.

(** ** Properties of the pattern matcher *)

Lemma isIgnored_true path patterns :
  isIgnored path patterns = true ↔
  ∃ pattern matched, pattern ∈ patterns
    ∧ Match pattern (Base path) = Some matched
    ∧ (matched = true ∨ Contains path pattern = true).
Proof.
  induction patterns as [|p rest IH]; simpl.
  - split; [done|]. intros (? & ? & Hin & _). by apply elem_of_nil in Hin.
  - destruct (Match p (Base path)) as [m|] eqn:Hm.
    + destruct (m || Contains path p) eqn:Hor.
      * split; [intros _|done]. exists p, m. split; [left|].
        split; [done|]. apply orb_true_iff in Hor. done.
      * apply orb_false_iff in Hor as [-> Hc]. rewrite IH. split.
        -- intros (q & m & Hin & Hq). exists q, m. split; [by right|done].
        -- intros (q & m & Hin & Hq & Hor). apply elem_of_cons in Hin as [->|Hin].
           ++ rewrite Hm in Hq. injection Hq as <-. destruct Hor; congruence.
           ++ by exists q, m.
    + rewrite IH. split.
      * intros (q & m & Hin & Hq). exists q, m. split; [by right|done].
      * intros (q & m & Hin & Hq & Hor). apply elem_of_cons in Hin as [->|Hin].
        -- congruence.
        -- by exists q, m.
Qed.

Lemma anyIncluded_true path patterns :
  anyIncluded path patterns = true ↔
  ∃ pattern matched, pattern ∈ patterns
    ∧ Match pattern (Base path) = Some matched
    ∧ (matched = true ∨ HasSuffix path pattern = true).
Proof.
  induction patterns as [|p rest IH]; simpl.
  - split; [done|]. intros (? & ? & Hin & _). by apply elem_of_nil in Hin.
  - destruct (Match p (Base path)) as [m|] eqn:Hm.
    + destruct (m || HasSuffix path p) eqn:Hor.
      * split; [intros _|done]. exists p, m. split; [left|].
        split; [done|]. apply orb_true_iff in Hor. done.
      * apply orb_false_iff in Hor as [-> Hc]. rewrite IH. split.
        -- intros (q & m & Hin & Hq). exists q, m. split; [by right|done].
        -- intros (q & m & Hin & Hq & Hor). apply elem_of_cons in Hin as [->|Hin].
           ++ rewrite Hm in Hq. injection Hq as <-. destruct Hor; congruence.
           ++ by exists q, m.
    + rewrite IH. split.
      * intros (q & m & Hin & Hq). exists q, m. split; [by right|done].
      * intros (q & m & Hin & Hq & Hor). apply elem_of_cons in Hin as [->|Hin].
        -- congruence.
        -- by exists q, m.
Qed.

(** C3 (amended).  A path is ignored iff some pattern is well formed and
    either glob-matches the base name of the path or occurs in the path;
    a path is included iff the pattern list is empty or some pattern is
    well formed and either glob-matches the base name or is a suffix of
    the path.  Inclusion does not test for a substring. *)
Theorem C3_matching_rule path patterns :
  (isIgnored path patterns = true ↔
     ∃ pattern matched, pattern ∈ patterns
       ∧ Match pattern (Base path) = Some matched
       ∧ (matched = true ∨ Contains path pattern = true))
  ∧ (isIncluded path patterns = true ↔
     patterns = [] ∨
     ∃ pattern matched, pattern ∈ patterns
       ∧ Match pattern (Base path) = Some matched
       ∧ (matched = true ∨ HasSuffix path pattern = true)).
Proof.
  split; [apply isIgnored_true|].
  unfold isIncluded. destruct patterns as [|p rest].
  - simpl. split; [by left|done].
  - change (length (p :: rest) =? 0)%nat with false. cbv iota.
    rewrite anyIncluded_true. split; [by right|].
    intros [?|?]; done.
Qed.

(** On well-formed patterns exclusion is the rule of the specification. *)
Lemma isIgnored_spec path patterns :
  Forall (λ pattern, Match pattern (Base path) ≠ None) patterns →
  isIgnored path patterns = spec_isIgnored path patterns.
Proof.
  unfold spec_isIgnored, spec_matches.
  induction 1 as [|p rest Hp _ IH]; simpl; [done|].
  destruct (Match p (Base path)) as [[|]|]; [done| |done].
  rewrite IH. simpl. rewrite orb_false_r.
  by destruct (Contains path p).
Qed.

Lemma isIgnored_app path l1 l2 :
  isIgnored path (l1 ++ l2) = isIgnored path l1 || isIgnored path l2.
Proof.
  induction l1 as [|p l1 IH]; simpl; [done|].
  destruct (Match p (Base path)) as [m|]; [|done].
  by destruct (m || Contains path p).
Qed.

(** C5 (amended).  A pattern on which the glob matcher reports an error
    is skipped altogether: it is not tested as a substring either, the
    scan goes on with the other patterns, and the answer is the one the
    list without that pattern gives. *)
Theorem C5_malformed_skipped path pattern before after :
  Match pattern (Base path) = None →
  isIgnored path (before ++ pattern :: after)
  = isIgnored path (before ++ after).
Proof.
  intros Hbad. rewrite !isIgnored_app. simpl. by rewrite Hbad.
Qed.

(** ** Properties of the discovery walk *)

Lemma node_rect' (P : node → Prop) :
  (∀ name, P (File name)) →
  (∀ name entries readErr, Forall P entries → P (Dir name entries readErr)) →
  ∀ d, P d.
Proof.
  intros HF HD. fix IH 1. intros [name|name entries readErr]; [apply HF|].
  apply HD. induction entries as [|d entries IHe]; constructor.
  - apply IH.
  - apply IHe.
Qed.

(** A property of the state that every call of the callback keeps is kept
    by the walk. *)
Lemma walkEntries_preserves {S} (Q : S → Prop) walk path dirs st :
  Forall (λ d, ∀ path st, Q st → Q (walk path d st).1) dirs →
  Q st → Q (walkEntries (S:=S) walk path dirs st).1.
Proof.
  intros Hall. revert st. induction Hall as [|d dirs Hd _ IH]; intros st Hst.
  - done.
  - simpl. specialize (Hd (Join path (nodeName d)) st Hst).
    destruct (walk (Join path (nodeName d)) d st) as [st1 [[|msg]|]]; simpl in *.
    + done.
    + done.
    + by apply IH.
Qed.

Lemma walkDir_preserves {S} (fn : string → walkArg → S → S * option error)
    (Q : S → Prop) :
  (∀ path d st, Q st → Q (fn path d st).1) →
  ∀ d path st, Q st → Q (walkDir fn path d st).1.
Proof.
  intros Hfn. induction d as [name|name entries readErr IH] using node_rect';
    intros path st Hst; simpl.
  - by apply Hfn.
  - pose proof (Hfn path (Entry true) st Hst) as H1.
    destruct (fn path (Entry true) st) as [st1 [[|msg]|]]; simpl in *; try done.
    assert (Q (walkEntries (walkDir fn) path entries st1).1) as Hent
      by by apply walkEntries_preserves.
    destruct readErr as [msg|]; [|done].
    pose proof (Hfn path (Failure (IOError msg)) st1 H1) as H2.
    destruct (fn path (Failure (IOError msg)) st1) as [st2 [[|msg']|]];
      simpl in *; try done.
    by apply walkEntries_preserves.
Qed.

Lemma WalkDir_preserves {S} (fn : string → walkArg → S → S * option error)
    (Q : S → Prop) root info st :
  (∀ path d st, Q st → Q (fn path d st).1) →
  Q st → Q (WalkDir fn root info st).1.
Proof.
  intros Hfn Hst. unfold WalkDir.
  assert (Q (match info with
             | LstatErr msg => fn root (Failure (IOError msg)) st
             | LstatOk d => walkDir fn root d st
             end).1) as H.
  { destruct info; [by apply Hfn|by apply walkDir_preserves]. }
  destruct (match info with
            | LstatErr msg => fn root (Failure (IOError msg)) st
            | LstatOk d => walkDir fn root d st
            end) as [st1 [[|msg]|]]; done.
Qed.

Lemma walkFn_candidates includePatterns ignorePatterns path d files :
  Forall (λ f, isIgnored f ignorePatterns = false
               ∧ isIncluded f includePatterns = true) files →
  Forall (λ f, isIgnored f ignorePatterns = false
               ∧ isIncluded f includePatterns = true)
         (walkFn includePatterns ignorePatterns path d files).1.
Proof.
  intros Hf. unfold walkFn. destruct d as [[|]|err]; simpl; try done.
  - by destruct (isIgnored path ignorePatterns).
  - destruct (isIgnored path ignorePatterns) eqn:Hig; [done|].
    destruct (isIncluded path includePatterns) eqn:Hin; simpl; [|done].
    apply Forall_app. split; [done|]. by constructor.
Qed.

(** C7.  Exclusion takes precedence over inclusion: a path that matches an
    exclude pattern is not in the candidate list of the walk, whatever the
    include patterns say about it. *)
Theorem C7_exclusion_precedence includePatterns ignorePatterns root path :
  isIgnored path ignorePatterns = true →
  isIncluded path includePatterns = true →
  path ∉ (discover includePatterns ignorePatterns root).1.
Proof.
  intros Hig _ Hin.
  assert (Forall (λ f, isIgnored f ignorePatterns = false
                       ∧ isIncluded f includePatterns = true)
            (discover includePatterns ignorePatterns root).1) as Hall.
  { unfold discover.
    pose proof (WalkDir_preserves (walkFn includePatterns ignorePatterns)
      (Forall (λ f, isIgnored f ignorePatterns = false
                    ∧ isIncluded f includePatterns = true)) "." root []
      (λ p d st, walkFn_candidates includePatterns ignorePatterns p d st)
      (Forall_nil_2 _)) as H.
    by destruct (WalkDir (walkFn includePatterns ignorePatterns) "." root []). }
  rewrite Forall_forall in Hall. destruct (Hall _ Hin) as [Hno _]. congruence.
Qed.

Lemma nodeName_prune ignorePatterns path d :
  nodeName (prune ignorePatterns path d) = nodeName d.
Proof. destruct d; simpl; [done|]. by destruct (isIgnored _ _). Qed.

Lemma traced_excluded_dir includePatterns ignorePatterns path st :
  isIgnored path ignorePatterns = true →
  traced includePatterns ignorePatterns path (Entry true) st
  = ((st.1, st.2 ++ [path]), Some SkipDir).
Proof. intros Hig. unfold traced. simpl. by rewrite Hig. Qed.

Lemma walk_prune includePatterns ignorePatterns d :
  ∀ path st,
    walkDir (traced includePatterns ignorePatterns) path
            (prune ignorePatterns path d) st
    = walkDir (traced includePatterns ignorePatterns) path d st.
Proof.
  induction d as [name|name entries readErr IH] using node_rect';
    intros path st; [done|].
  simpl. destruct (isIgnored path ignorePatterns) eqn:Hig.
  - simpl. by rewrite !traced_excluded_dir.
  - simpl.
    assert (∀ st, walkEntries (walkDir (traced includePatterns ignorePatterns))
                path ((λ e, prune ignorePatterns (Join path (nodeName e)) e)
                        <$> entries) st
              = walkEntries (walkDir (traced includePatterns ignorePatterns))
                  path entries st) as Hent.
    { clear -IH. induction IH as [|e entries He _ IHe]; intros st; [done|].
      simpl. rewrite nodeName_prune, He.
      destruct (walkDir _ _ e st) as [st1 [[|msg]|]]; [done|done|apply IHe]. }
    destruct (traced includePatterns ignorePatterns path (Entry true) st)
      as [st1 [[|msg]|]]; [done|done|].
    destruct readErr as [msg|]; [done|apply Hent].
Qed.

(** C6.  A directory whose path matches an exclude pattern is pruned: the
    callback is called on the directory and on nothing below it, the
    candidate list is left as it was, whatever the directory holds and
    whatever the include patterns are, and the walk goes on.  For a whole
    tree: the candidates and the paths the callback classifies are those
    of the tree in which every excluded directory is empty. *)
Theorem C6_excluded_directory_pruned includePatterns ignorePatterns :
  (∀ path name entries readErr files visited,
     isIgnored path ignorePatterns = true →
     walkDir (walkFn includePatterns ignorePatterns) path
             (Dir name entries readErr) files = (files, None)
     ∧ walkDir (traced includePatterns ignorePatterns) path
               (Dir name entries readErr) (files, visited)
       = ((files, visited ++ [path]), None))
  ∧ (∀ d path st,
       walkDir (traced includePatterns ignorePatterns) path d st
       = walkDir (traced includePatterns ignorePatterns) path
                 (prune ignorePatterns path d) st).
Proof.
  split.
  - intros path name entries readErr files visited Hig.
    unfold traced. simpl. by rewrite Hig.
  - intros d path st. symmetry. apply walk_prune.
Qed.


(** The loop over the entries never returns [SkipDir], and neither does the
    walk below the callback of the program. *)
Lemma walkEntries_no_skip {S} (walk : string → node → S → S * option error)
    path dirs st :
  (walkEntries walk path dirs st).2 ≠ Some SkipDir.
Proof.
  revert st. induction dirs as [|d dirs IH]; intros st; simpl; [done|].
  destruct (walk (Join path (nodeName d)) d st) as [st1 [[|msg]|]]; simpl;
    [done|done|apply IH].
Qed.

Lemma walkDir_no_skip includePatterns ignorePatterns path d files :
  (walkDir (walkFn includePatterns ignorePatterns) path d files).2
  ≠ Some SkipDir.
Proof.
  destruct d as [name|name entries readErr]; simpl.
  - destruct (isIgnored path ignorePatterns); [done|].
    by destruct (negb (isIncluded path includePatterns)).
  - destruct (isIgnored path ignorePatterns); [done|].
    destruct readErr; [done|apply walkEntries_no_skip].
Qed.

Lemma walkEntries_stops includePatterns ignorePatterns
    path before d after files files1 files2 msg :
  walkEntries (walkDir (walkFn includePatterns ignorePatterns)) path before files
  = (files1, None) →
  walkDir (walkFn includePatterns ignorePatterns) (Join path (nodeName d)) d files1
  = (files2, Some (IOError msg)) →
  walkEntries (walkDir (walkFn includePatterns ignorePatterns)) path
              (before ++ d :: after) files
  = (files2, Some (IOError msg)).
Proof.
  revert files. induction before as [|b before IH]; intros files Hb Hd;
    simpl in *.
  - injection Hb as ->. by rewrite Hd.
  - pose proof (walkDir_no_skip includePatterns ignorePatterns
                  (Join path (nodeName b)) b files) as Hns.
    destruct (walkDir (walkFn includePatterns ignorePatterns)
                (Join path (nodeName b)) b files) as [st' [[|msg']|]];
      simpl in *; [done|done|by apply IH].
Qed.

(** C4 (amended).  An enumeration error stops the walk.  A directory that
    cannot be read makes the callback return the error; the loop over the
    entries of the enclosing directory returns it without visiting the
    entries that follow, and so does every enclosing directory up to the
    root.  The candidates found before the failure are kept, and the error
    is printed once, after the walk.  When [Lstat] of the root fails the
    candidate list is empty. *)
Theorem C4_enumeration_error_stops_walk includePatterns ignorePatterns :
  (∀ path name entries msg files,
     isIgnored path ignorePatterns = false →
     walkDir (walkFn includePatterns ignorePatterns) path
             (Dir name entries (Some msg)) files
     = (files, Some (IOError msg)))
  ∧ (∀ path before d after files files1 files2 msg,
       walkEntries (walkDir (walkFn includePatterns ignorePatterns)) path
                   before files = (files1, None) →
       walkDir (walkFn includePatterns ignorePatterns)
               (Join path (nodeName d)) d files1
       = (files2, Some (IOError msg)) →
       walkEntries (walkDir (walkFn includePatterns ignorePatterns)) path
                   (before ++ d :: after) files
       = (files2, Some (IOError msg)))
  ∧ (∀ path name entries files files1 msg,
       isIgnored path ignorePatterns = false →
       walkEntries (walkDir (walkFn includePatterns ignorePatterns)) path
                   entries files = (files1, Some (IOError msg)) →
       walkDir (walkFn includePatterns ignorePatterns) path
               (Dir name entries None) files
       = (files1, Some (IOError msg)))
  ∧ (∀ root files msg,
       walkDir (walkFn includePatterns ignorePatterns) "." root []
       = (files, Some (IOError msg)) →
       discover includePatterns ignorePatterns (LstatOk root)
       = (files, ["Error: " +:+ msg +:+ nl]))
  ∧ (∀ msg,
       discover includePatterns ignorePatterns (LstatErr msg)
       = ([], ["Error: " +:+ msg +:+ nl])).
Proof.
  split; [|split; [|split; [|split]]].
  - intros path name entries msg files Hig. simpl. by rewrite Hig.
  - intros. by eapply walkEntries_stops.
  - intros path name entries files files1 msg Hig Hent. simpl.
    by rewrite Hig, Hent.
  - intros root files msg Hw. unfold discover, WalkDir. by rewrite Hw.
  - intros msg. reflexivity.
Qed.

(** ** Properties of [processFile] *)

(** C8.  A file larger than 1 MiB is skipped right after [os.Stat]: the
    file is neither opened nor read, so no binary check takes place.  A file
    of at most 1 MiB whose first 8000 bytes hold a NUL byte is skipped after
    the binary check.  Either way the result is the empty text with zero
    tokens and no error, and one line is printed. *)
Theorem C8_skip_contract path f :
  fs !! path = Some f →
  (maxFileSize < f_size f →
     processFile fs path
     = (Ok ("", 0),
        [EvStat path;
         EvPrint ("Skipping large file (>1MB): " +:+ path +:+ nl)]))
  ∧ (f_size f ≤ maxFileSize →
     f_open f = None →
     f_read f = None →
     hasNUL (takeBytes (Z.to_nat 8000) (f_bytes f)) = true →
     processFile fs path
     = (Ok ("", 0),
        [EvStat path; EvOpen path; EvRead path (Z.to_nat 8000); EvClose path;
         EvPrint ("Skipping binary file: " +:+ path +:+ nl)])).
Proof.
  intros Hf. split.
  - intros Hsize. unfold processFile, os_Stat. cbn -[maxFileSize Z.ltb].
    rewrite Hf. cbn -[maxFileSize Z.ltb].
    apply Z.ltb_lt in Hsize. by rewrite Hsize.
  - intros Hsize Hopen Hread Hnul.
    unfold processFile, isBinaryFile, os_Stat, os_Open, file_Read.
    cbn -[maxFileSize Z.ltb Z.to_nat takeBytes].
    rewrite Hf. cbn -[maxFileSize Z.ltb Z.to_nat takeBytes].
    apply Z.ltb_ge in Hsize. rewrite Hsize, Hopen.
    cbn -[maxFileSize Z.ltb Z.to_nat takeBytes].
    rewrite Hread. cbn -[maxFileSize Z.ltb Z.to_nat takeBytes].
    by rewrite Hnul.
Qed.

(** ** Properties of the worker pool *)

Lemma append_nil_r (s : string) : s +:+ "" = s.
Proof.
  induction s as [|c s IH]; [done|].
  change (String c (s +:+ "") = String c s). by rewrite IH.
Qed.

Lemma append_assoc (a b c : string) : (a +:+ b) +:+ c = a +:+ (b +:+ c).
Proof.
  induction a as [|x a IH]; [done|].
  change (String x ((a +:+ b) +:+ c) = String x (a +:+ (b +:+ c))).
  by rewrite IH.
Qed.

Lemma texts_app (a b : list string) : texts (a ++ b) = texts a +:+ texts b.
Proof.
  induction a as [|p a IH]; simpl; [done|]. by rewrite IH, append_assoc.
Qed.

Lemma tokenSum_snoc (l : list string) (p : string) :
  tokenSum (l ++ [p]) = add_int (tokenSum l) (tokensOf p).
Proof. unfold tokenSum. by rewrite foldl_app. Qed.

Lemma processed_formatted p content n :
  processed p content n → formatted p = content ∧ tokensOf p = n.
Proof. unfold processed, formatted, tokensOf. by intros ->. Qed.

Lemma processed_nonneg p content n : processed p content n → 0 ≤ n.
Proof.
  unfold processed, processFile, isBinaryFile, os_Stat, os_Open, file_Read,
    countTokens.
  cbn -[maxFileSize Z.ltb Z.to_nat takeBytes scanLines].
  destruct (fs !! p) as [f|]; cbn -[maxFileSize Z.ltb Z.to_nat takeBytes scanLines];
    [|done].
  destruct (maxFileSize <? f_size f); cbn -[Z.to_nat takeBytes scanLines].
  { intros [= <- <-]. done. }
  destruct (f_open f); cbn -[Z.to_nat takeBytes scanLines]; [done|].
  destruct (f_read f); cbn -[Z.to_nat takeBytes scanLines]; [done|].
  destruct (hasNUL _); cbn -[Z.to_nat takeBytes scanLines].
  { intros [= <- <-]. done. }
  destruct (scanLines (f_bytes f)); cbn; [|done].
  intros [= <- <-]. lia.
Qed.

(** A step of a goroutine rewrites one element of the list of goroutines. *)
Lemma step_thread_worker i s s' :
  step_thread (Worker i) s = Some s' →
  ∃ ws1 p pc ws2 sh' next,
    workers s = ws1 ++ (p, pc) :: ws2
    ∧ wstep p pc (sh s) = Some (sh', next)
    ∧ s' = {| sh := sh'; main := main s;
              workers := ws1 ++ match next with
                                | Some pc' => [(p, pc')]
                                | None => []
                                end ++ ws2 |}.
Proof.
  unfold step_thread.
  destruct (workers s !! i) as [[p pc]|] eqn:Hl; simpl; [|done].
  destruct (wstep p pc (sh s)) as [[sh' next]|] eqn:Hw; simpl; [|done].
  intros [= <-].
  exists (take i (workers s)), p, pc, (drop (S i) (workers s)), sh', next.
  split; [symmetry; by apply take_drop_middle|]. split; [done|].
  f_equal. destruct next as [pc'|].
  - apply insert_take_drop. by eapply lookup_lt_Some.
  - apply delete_take_drop.
Qed.

Lemma step_thread_main s s' :
  step_thread Main s = Some s' →
  ∃ sh' pc' new,
    mstep (main s) (sh s) = Some (sh', pc', new)
    ∧ s' = {| sh := sh'; main := pc'; workers := workers s ++ new |}.
Proof.
  unfold step_thread.
  destruct (mstep (main s) (sh s)) as [[[sh' pc'] new]|]; simpl; [|done].
  intros [= <-]. by exists sh', pc', new.
Qed.

(** The knowledge of a goroutine outside the critical section does not
    depend on [totalTokens]. *)
Lemma wok_outside total total' w : wcrit w = 0%nat → wok total w → wok total' w.
Proof. destruct w as [p []]; simpl; done. Qed.

Lemma outside_all (ws : list (string * wpc)) :
  sum_list_with wcrit ws = 0%nat → Forall (λ w, wcrit w = 0%nat) ws.
Proof.
  induction ws as [|w ws IH]; simpl; [constructor|].
  intros H. constructor; [lia|apply IH; lia].
Qed.

Lemma wok_others total total' ws :
  sum_list_with wcrit ws = 0%nat →
  Forall (wok total) ws → Forall (wok total') ws.
Proof.
  intros Hz Hws. apply outside_all in Hz.
  induction Hws as [|w ws Hw _ IH]; [constructor|].
  apply Forall_cons in Hz as [Hz1 Hz2].
  constructor; [by eapply wok_outside|by apply IH].
Qed.

Lemma uncounted_others ws :
  sum_list_with wcrit ws = 0%nat → ws ≫= uncounted = [].
Proof.
  intros Hz. apply outside_all in Hz.
  induction Hz as [|[p pc] ws Hw _ IH]; [done|].
  rewrite bind_cons, IH. by destruct pc.
Qed.

Lemma Inv_init files : Inv files (init files).
Proof.
  split; simpl; try done.
  exists []. simpl. rewrite app_nil_r.
  split; [done|split; [done|split; [constructor|split; [|done]]]].
  intros k. by rewrite take_nil.
Qed.

Ltac inv_mutex :=
  unfold holders; simpl; rewrite ?sum_list_with_app; simpl; lia.

Ltac inv_same_content counted Hsub :=
  exists counted; rewrite ?bind_app, ?bind_cons; simpl; rewrite ?app_nil_r;
  split; [done|split; [done|split; [done|split; [done|]]]];
  etrans; [|exact Hsub]; solve_submseteq.

Lemma Inv_step_main files s s' :
  Inv files s → step_thread Main s = Some s' → Inv files s'.
Proof.
  intros [Hmu Hws Hb Hwg Hdone (counted & Hc & Ht & Hok & Hpre & Hsub)] Hstep.
  apply step_thread_main in Hstep as (sh' & pc' & new & Hstep & ->).
  destruct s as [[total content locked nsem nwg out] pc ws].
  unfold holders in *. simpl in *.
  destruct pc as [[|p fl]|p fl| |p fl|p fl|p fl|p fl| |]; simpl in *;
    repeat case_match; simplify_eq/=; rewrite ?app_nil_r.
  all: split; unfold holders; simpl;
    rewrite ?length_app, ?bind_app, ?sum_list_with_app; simpl; try done;
    try lia.
  all: try (intros _; apply length_zero_iff_nil; lia).
  all: try (inv_same_content counted Hsub).
  all: apply Forall_app; split; [done|]; by repeat constructor.
Qed.

Lemma Inv_step_worker files i s s' :
  Inv files s → step_thread (Worker i) s = Some s' → Inv files s'.
Proof.
  intros [Hmu Hws Hb Hwg Hdone (counted & Hc & Ht & Hok & Hpre & Hsub)] Hstep.
  apply step_thread_worker in Hstep
    as (ws1 & p & pc & ws2 & sh' & next & Hsplit & Hstep & ->).
  destruct s as [[total content locked nsem nwg out] mpc ws].
  unfold holders in *. simpl in *. subst ws.
  assert (mpc ≠ MDone) as Hnd.
  { intros ->. specialize (Hdone eq_refl). by destruct ws1. }
  clear Hdone.
  rewrite sum_list_with_app in Hmu. simpl in Hmu.
  apply Forall_app in Hws as [Hws1 Hws2].
  apply Forall_cons in Hws2 as [Hw Hws2].
  repeat rewrite ?bind_app, ?bind_cons in Hsub.
  repeat rewrite ?bind_app, ?bind_cons in Hc.
  repeat rewrite ?bind_app, ?bind_cons in Hok.
  rewrite length_app in Hwg. simpl in Hwg.
  destruct pc as [|c n|c n|c n|n| | | |]; simpl in Hstep.
  - (* 184: processFile *)
    destruct (processFile fs p) as [[[c n]|err] t] eqn:Hp; simplify_eq/=.
    + split; simpl.
      * inv_mutex.
      * apply Forall_app; split; [done|]. constructor; [|done].
        unfold wok, processed; simpl. by rewrite Hp.
      * done.
      * rewrite length_app; simpl; lia.
      * done.
      * inv_same_content counted Hsub.
    + split; simpl.
      * inv_mutex.
      * apply Forall_app; split; [done|]. by constructor.
      * done.
      * rewrite length_app; simpl; lia.
      * done.
      * inv_same_content counted Hsub.
  - (* 190: mu.Lock() *)
    destruct locked; simplify_eq/=. split; simpl.
    + inv_mutex.
    + apply Forall_app; split; [done|]. by constructor.
    + done.
    + rewrite length_app; simpl; lia.
    + done.
    + inv_same_content counted Hsub.
  - (* 191: the budget test *)
    destruct (add_int total n <=? maxTotalTokens) eqn:Hle; simplify_eq/=.
    + apply Z.leb_le in Hle. split; simpl.
      * inv_mutex.
      * apply Forall_app; split; [done|]. by constructor.
      * done.
      * rewrite length_app; simpl; lia.
      * done.
      * inv_same_content counted Hsub.
    + split; simpl.
      * inv_mutex.
      * apply Forall_app; split; [done|]. by constructor.
      * done.
      * rewrite length_app; simpl; lia.
      * done.
      * inv_same_content counted Hsub.
  - (* 192: WriteString *)
    simplify_eq/=. destruct Hw as [Hp Hle].
    destruct locked; [|lia].
    assert (sum_list_with wcrit ws1 = 0%nat) as Hz1 by lia.
    assert (sum_list_with wcrit ws2 = 0%nat) as Hz2 by lia.
    apply processed_formatted in Hp as Hf. destruct Hf as [Hf _].
    rewrite (uncounted_others _ Hz1), (uncounted_others _ Hz2) in Hsub, Hok |- *.
    simpl in *. rewrite app_nil_r in Hsub, Hok.
    split; simpl.
    + inv_mutex.
    + apply Forall_app; split; [done|]. constructor; [|done].
      split; [by exists c|done].
    + done.
    + rewrite length_app; simpl; lia.
    + done.
    + exists counted. rewrite !bind_app, !bind_cons.
      rewrite (uncounted_others _ Hz1), (uncounted_others _ Hz2). simpl.
      split; [|split; [done|split; [|split; [done|]]]].
      * rewrite app_nil_r, texts_app. simpl. by rewrite Hf, append_nil_r.
      * apply Forall_app; split; [done|]. constructor; [|done]. by exists c, n.
      * etrans; [|exact Hsub]. solve_submseteq.
  - (* 193: totalTokens += tokenCount *)
    simplify_eq/=. destruct Hw as [[c Hp] Hle].
    destruct locked; [|lia].
    assert (sum_list_with wcrit ws1 = 0%nat) as Hz1 by lia.
    assert (sum_list_with wcrit ws2 = 0%nat) as Hz2 by lia.
    apply processed_formatted in Hp as Hf. destruct Hf as [_ Hn].
    rewrite (uncounted_others _ Hz1), (uncounted_others _ Hz2) in Hsub, Hok |- *.
    simpl in *.
    split; simpl.
    + inv_mutex.
    + apply Forall_app; split; [by eapply wok_others|].
      constructor; [done|by eapply wok_others].
    + done.
    + rewrite length_app; simpl; lia.
    + done.
    + exists (counted ++ [p]). rewrite !bind_app, !bind_cons.
      rewrite (uncounted_others _ Hz1), (uncounted_others _ Hz2). simpl.
      split; [by rewrite app_nil_r|split; [|split; [by rewrite app_nil_r|split]]].
      * by rewrite tokenSum_snoc, Hn.
      * intros k. destruct (decide (k ≤ length counted)%nat) as [Hk|Hk].
        -- rewrite take_app_le by done. apply Hpre.
        -- rewrite take_ge by (rewrite length_app; simpl; lia).
           by rewrite tokenSum_snoc, Hn.
      * etrans; [|exact Hsub]. solve_submseteq.
  - (* 195: Printf *)
    simplify_eq/=. split; simpl.
    + inv_mutex.
    + apply Forall_app; split; [done|]. by constructor.
    + done.
    + rewrite length_app; simpl; lia.
    + done.
    + inv_same_content counted Hsub.
  - (* 197: mu.Unlock() *)
    simplify_eq/=. split; simpl.
    + destruct locked; inv_mutex.
    + apply Forall_app; split; [done|]. by constructor.
    + done.
    + rewrite length_app; simpl; lia.
    + done.
    + inv_same_content counted Hsub.
  - (* deferred <-sem *)
    destruct nsem as [|k]; simplify_eq/=. split; simpl.
    + inv_mutex.
    + apply Forall_app; split; [done|]. by constructor.
    + done.
    + rewrite length_app; simpl; lia.
    + done.
    + inv_same_content counted Hsub.
  - (* deferred wg.Done() *)
    destruct nwg as [|k]; simplify_eq/=. split; simpl.
    + inv_mutex.
    + apply Forall_app; split; done.
    + done.
    + rewrite length_app; simpl; lia.
    + done.
    + inv_same_content counted Hsub.
Qed.

Lemma Inv_step files s s' : Inv files s → step s s' → Inv files s'.
Proof.
  intros HI [[|i] Hstep];
    [by eapply Inv_step_main|by eapply Inv_step_worker].
Qed.

Lemma Inv_reachable files s : reachable files s → Inv files s.
Proof.
  unfold reachable. revert s. apply rtc_ind_r.
  - apply Inv_init.
  - intros s1 s2 _ Hstep IH. by eapply Inv_step.
Qed.

Lemma mstep_shared pc sh0 sh' pc' new :
  mstep pc sh0 = Some (sh', pc', new) →
  totalTokens sh' = totalTokens sh0
  ∧ collectedContent sh' = collectedContent sh0.
Proof.
  destruct pc as [[|p fl]|p fl| |p fl|p fl|p fl|p fl| |]; simpl;
    repeat case_match; intros; simplify_eq/=; done.
Qed.

(** A step leaves [totalTokens] and the content alone, unless it is one of
    the two merging steps of a goroutine that holds the lock alone and whose
    budget test holds in the state the step starts from. *)
Lemma step_effect files s s' :
  Inv files s → step s s' →
  (totalTokens (sh s') = totalTokens (sh s)
   ∧ collectedContent (sh s') = collectedContent (sh s))
  ∨ ∃ path content n,
      merging s s' path content n
      ∧ path ∈ files
      ∧ processed path content n
      ∧ add_int (totalTokens (sh s)) n ≤ maxTotalTokens
      ∧ mu (sh s) = true ∧ mu (sh s') = true ∧ holders s = 1%nat.
Proof.
  intros [Hmu Hws Hb Hwg Hdone (counted & Hc & Ht & Hok & Hpre & Hsub)]
    [[|i] Hstep].
  { apply step_thread_main in Hstep as (sh' & pc' & new & Hstep & ->).
    left. by eapply mstep_shared. }
  apply step_thread_worker in Hstep
    as (ws1 & p & pc & ws2 & sh' & next & Hsplit & Hstep & ->).
  destruct s as [[total content locked nsem nwg out] mpc ws].
  unfold holders in *. simpl in *. subst ws.
  rewrite sum_list_with_app in Hmu. simpl in Hmu.
  apply Forall_app in Hws as [Hws1 Hws2].
  apply Forall_cons in Hws2 as [Hw Hws2].
  repeat rewrite ?bind_app, ?bind_cons in Hsub.
  destruct pc as [|c n|c n|c n|n| | | |]; simpl in Hstep;
    repeat case_match; simplify_eq/=; try (by left); try (exfalso; lia).
  - (* 192 *)
    destruct Hw as [Hp Hle].
    right. exists p, c, n. split.
    { exists ws1, ws2, (WWrite c n), (WIncr n). simpl.
      split; [done|split; [done|]]. left. done. }
    split; [|split; [done|split; [done|split; [done|split; [done|]]]]].
    + eapply elem_of_submseteq; [|exact Hsub].
      rewrite !elem_of_app. right. right. right. simpl. left.
    + rewrite sum_list_with_app. simpl. lia.
  - (* 193 *)
    destruct Hw as [[c Hp] Hle].
    right. exists p, c, n. split.
    { exists ws1, ws2, (WIncr n), WUnlock. simpl.
      split; [done|split; [done|]]. right. done. }
    split; [|split; [done|split; [done|split; [done|split; [done|]]]]].
    + eapply elem_of_submseteq; [|exact Hsub].
      rewrite !elem_of_app. left. right. right. simpl. left.
    + rewrite sum_list_with_app. simpl. lia.
Qed.

Lemma add_int_exact a b :
  - 2 ^ 63 ≤ a + b < 2 ^ 63 → add_int a b = a + b.
Proof.
  intros H. unfold add_int, wrap_int. rewrite Z.mod_small; lia.
Qed.

Lemma tokens_fit_elem files path :
  tokens_fit files → path ∈ files →
  tokensOf path ≤ 2 ^ 63 - 1 - maxTotalTokens.
Proof. unfold tokens_fit. rewrite Forall_forall. auto. Qed.

Lemma total_nonneg files s :
  tokens_fit files → reachable files s → 0 ≤ totalTokens (sh s).
Proof.
  intros Hfit. unfold reachable. revert s. apply rtc_ind_r; [done|].
  intros s1 s2 Hr Hstep IH.
  pose proof (Inv_reachable _ _ Hr) as HI.
  destruct (step_effect _ _ _ HI Hstep)
    as [[-> _]|(p & c & n & Hm & Hin & Hp & Hle & _)]; [done|].
  destruct Hm as (ws1 & ws2 & pc & pc' & _ & _ & [(_ & _ & _ & ->)|(_ & _ & _ & ->)]);
    [done|].
  pose proof (processed_nonneg _ _ _ Hp) as Hn.
  pose proof (tokens_fit_elem _ _ Hfit Hin) as Hfitp.
  apply processed_formatted in Hp as [_ Htok]. rewrite Htok in Hfitp.
  pose proof (inv_budget _ _ HI) as Hb.
  rewrite add_int_exact; unfold maxTotalTokens in *; lia.
Qed.

Lemma inflightMax_nonneg s : 0 ≤ inflightMax s.
Proof.
  unfold inflightMax. induction (workers s) as [|w ws IH]; simpl; lia.
Qed.

(** C9.  In every state of every interleaving [totalTokens] is at most
    [maxTotalTokens]: the budget is never exceeded, not even by the tokens
    of one file. *)
Theorem C9_budget_never_exceeded files s :
  reachable files s → totalTokens (sh s) ≤ maxTotalTokens.
Proof. intros Hr. apply (inv_budget files). by apply Inv_reachable. Qed.

(** C2.  Whatever moment [s0] of the run is taken as the moment the budget
    was exhausted, [totalTokens] after [wg.Wait()] has returned is at most
    [maxTotalTokens] plus the largest token count among the files in flight
    at [s0]. *)
Theorem C2_bounded_overshoot files s0 s :
  reachable files s0 → rtc step s0 s → main s = MDone →
  totalTokens (sh s) ≤ maxTotalTokens + inflightMax s0.
Proof.
  intros Hr0 Hr _.
  assert (reachable files s) as Hs by (unfold reachable; by etrans).
  pose proof (inv_budget _ _ (Inv_reachable _ _ Hs)).
  pose proof (inflightMax_nonneg s0). lia.
Qed.

(** C1.  A step that changes [totalTokens] or the accumulated content is
    line 192 or line 193 of a goroutine that holds the lock, alone in the
    critical section, for a file whose budget test
    [totalTokens+tokenCount <= maxTotalTokens] holds in the very state the
    step is taken from: the test, the append and the increment happen under
    one tenure of the lock.  [totalTokens] never decreases along a step, as
    long as no token count is so large that the 64-bit sum wraps around
    ([tokens_fit]: a slice length never is). *)
Theorem C1_atomic_budget_merge files s s' :
  reachable files s → step s s' →
  (tokens_fit files → totalTokens (sh s) ≤ totalTokens (sh s'))
  ∧ (totalTokens (sh s') ≠ totalTokens (sh s)
     ∨ collectedContent (sh s') ≠ collectedContent (sh s) →
     ∃ path content n,
       merging s s' path content n
       ∧ processed path content n
       ∧ add_int (totalTokens (sh s)) n ≤ maxTotalTokens
       ∧ (tokens_fit files →
          add_int (totalTokens (sh s)) n = totalTokens (sh s) + n)
       ∧ mu (sh s) = true ∧ mu (sh s') = true ∧ holders s = 1%nat).
Proof.
  intros Hr Hstep.
  pose proof (Inv_reachable _ _ Hr) as HI.
  pose proof (inv_budget _ _ HI) as Hb.
  destruct (step_effect _ _ _ HI Hstep)
    as [[Ht Hc]|(p & c & n & Hm & Hin & Hp & Hle & Hmu & Hmu' & Hh)].
  { split; [lia|]. intros [?|?]; done. }
  assert (tokens_fit files →
          add_int (totalTokens (sh s)) n = totalTokens (sh s) + n ∧ 0 ≤ n)
    as Hex.
  { intros Hfit.
    pose proof (total_nonneg _ _ Hfit Hr) as H0.
    pose proof (processed_nonneg _ _ _ Hp) as Hn.
    pose proof (tokens_fit_elem _ _ Hfit Hin) as Hfitp.
    apply processed_formatted in Hp as [_ Htok]. rewrite Htok in Hfitp.
    split; [|done]. apply add_int_exact. unfold maxTotalTokens in *. lia. }
  split.
  - intros Hfit. destruct (Hex Hfit) as [Hadd Hn].
    destruct Hm as (ws1 & ws2 & pc & pc' & _ & _
                    & [(_ & _ & _ & ->)|(_ & _ & _ & ->)]); lia.
  - intros _. exists p, c, n.
    split; [done|split; [done|split; [done|split; [|done]]]].
    intros Hfit. by destruct (Hex Hfit).
Qed.

(** *** The books of a run: where every candidate file ends *)

Lemma step_thread_worker_at i s s' :
  step_thread (Worker i) s = Some s' →
  ∃ ws1 p pc ws2 sh' next,
    workers s !! i = Some (p, pc)
    ∧ workers s = ws1 ++ (p, pc) :: ws2
    ∧ wstep p pc (sh s) = Some (sh', next)
    ∧ s' = {| sh := sh'; main := main s;
              workers := ws1 ++ match next with
                                | Some pc' => [(p, pc')]
                                | None => []
                                end ++ ws2 |}.
Proof.
  unfold step_thread.
  destruct (workers s !! i) as [[p pc]|] eqn:Hl; simpl; [|done].
  destruct (wstep p pc (sh s)) as [[sh' next]|] eqn:Hw; simpl; [|done].
  intros [= <-].
  exists (take i (workers s)), p, pc, (drop (S i) (workers s)), sh', next.
  split; [done|]. split; [symmetry; by apply take_drop_middle|]. split; [done|].
  f_equal. destruct next as [pc'|].
  - apply insert_take_drop. by eapply lookup_lt_Some.
  - apply delete_take_drop.
Qed.

Lemma writing_others ws :
  sum_list_with wcrit ws = 0%nat → ws ≫= writing = [].
Proof.
  intros Hz. apply outside_all in Hz.
  induction Hz as [|[p pc] ws Hw _ IH]; [done|].
  rewrite bind_cons, IH. by destruct pc.
Qed.

Lemma withFate_app f log1 log2 :
  withFate f (log1 ++ log2) = withFate f log1 ++ withFate f log2.
Proof. unfold withFate. apply bind_app. Qed.

Lemma rejectedAt_snoc counted p q :
  rejectedAt counted q → rejectedAt (counted ++ [p]) q.
Proof.
  intros [Hok (merged & Hpre & Hlt)]. split; [done|].
  exists merged. split; [by apply prefix_app_r|done].
Qed.

Lemma brokeAt_snoc counted p : brokeAt counted → brokeAt (counted ++ [p]).
Proof.
  intros (merged & Hpre & Hle). exists merged.
  split; [by apply prefix_app_r|done].
Qed.

Lemma Books_init files : Books files (init files) [].
Proof.
  exists [], [], []. simpl. rewrite app_nil_r.
  split_and!; try done.
  intros k. by rewrite take_nil.
Qed.

Ltac books_norm :=
  simpl; rewrite ?withFate_app, ?bind_app, ?bind_cons; simpl;
  rewrite ?app_nil_r.

Ltac books_perm Hperm := etrans; [exact Hperm|]; solve_Permutation.

Ltac books_keep counted started dropped Hperm :=
  exists counted, started, dropped; books_norm;
  split_and!; try done; books_perm Hperm.

Lemma Books_step_main files s s' log :
  Books files s log → step_thread Main s = Some s' →
  Books files s' (log ++ decided Main s).
Proof.
  intros (counted & started & dropped
          & Hc & Ht & Hok & Hpre & Hfiles & Hperm & Hpass & Hrej & Hfail & Hdrop)
    Hstep.
  apply step_thread_main in Hstep as (sh' & pc' & new & Hstep & ->).
  destruct s as [[total content locked nsem nwg out] pc ws]. simpl in *.
  rewrite app_nil_r.
  destruct pc as [[|p fl]|p fl| |p fl|p fl|p fl|p fl| |]; simpl in *;
    repeat case_match; simplify_eq/=; rewrite ?app_nil_r.
  - books_keep counted started dropped Hperm.
  - books_keep counted started dropped Hperm.
  - (* 171-172: the limit is reached, the rest of the list is dropped *)
    destruct dropped as [|d dropped]; [|by destruct Hdrop].
    exists counted, started, (p :: fl).
    rewrite app_nil_r in *. simpl.
    split_and!; try done.
    intros _. split; [done|]. exists counted. split; [done|].
    by apply Z.leb_le.
  - books_keep counted started dropped Hperm.
  - books_keep counted started dropped Hperm.
  - books_keep counted started dropped Hperm.
  - books_keep counted started dropped Hperm.
  - books_keep counted started dropped Hperm.
  - (* 180: the goroutine of [p] starts *)
    exists counted, (started ++ [p]), dropped. books_norm.
    split_and!; try done.
    + by rewrite <- app_assoc.
    + rewrite Hperm. solve_Permutation.
    + intros Hd. by destruct (Hdrop Hd).
  - books_keep counted started dropped Hperm.
Qed.

Lemma Books_step_worker files i s s' log :
  Inv files s → Books files s log → step_thread (Worker i) s = Some s' →
  Books files s' (log ++ decided (Worker i) s).
Proof.
  intros [Hmu Hws _ _ _ _]
    (counted & started & dropped
     & Hc & Ht & Hok & Hpre & Hfiles & Hperm & Hpass & Hrej & Hfail & Hdrop)
    Hstep.
  apply step_thread_worker_at in Hstep
    as (ws1 & p & pc & ws2 & sh' & next & Hat & Hsplit & Hstep & ->).
  unfold decided. rewrite Hat. clear Hat.
  destruct s as [[total content locked nsem nwg out] mpc ws].
  unfold holders in *. simpl in *. subst ws.
  rewrite sum_list_with_app in Hmu. simpl in Hmu.
  apply Forall_app in Hws as [Hws1 Hws2].
  apply Forall_cons in Hws2 as [Hw Hws2].
  repeat rewrite ?bind_app, ?bind_cons in Hperm.
  repeat rewrite ?bind_app, ?bind_cons in Hc.
  repeat rewrite ?bind_app, ?bind_cons in Hok.
  repeat rewrite ?bind_app, ?bind_cons in Hpass.
  destruct pc as [|c n|c n|c n|n| | | |]; simpl in Hstep.
  - (* 184: processFile *)
    destruct (processFile fs p) as [[[c n]|err] t] eqn:Hp; simplify_eq/=.
    + books_keep counted started dropped Hperm.
    + exists counted, started, dropped. books_norm.
      split_and!; try done; try (books_perm Hperm).
      * apply Forall_app. split; [done|]. constructor; [|done].
        exists err. by rewrite Hp.
  - (* 190: mu.Lock() *)
    destruct locked; simplify_eq/=.
    books_keep counted started dropped Hperm.
  - (* 191: the budget test *)
    simpl in Hmu. destruct locked; [|lia].
    assert (sum_list_with wcrit ws1 = 0%nat) as Hz1 by lia.
    assert (sum_list_with wcrit ws2 = 0%nat) as Hz2 by lia.
    destruct (add_int total n <=? maxTotalTokens) eqn:Hle; simplify_eq/=;
      rewrite (uncounted_others _ Hz1), (uncounted_others _ Hz2) in Hperm, Hok;
      rewrite (uncounted_others _ Hz1), (uncounted_others _ Hz2),
        (writing_others _ Hz1), (writing_others _ Hz2) in Hpass;
      simpl in Hpass, Hperm, Hok; rewrite app_nil_r in Hpass, Hperm, Hok.
    + exists counted, started, dropped. books_norm.
      rewrite (uncounted_others _ Hz1), (uncounted_others _ Hz2),
        (writing_others _ Hz1), (writing_others _ Hz2). simpl.
      rewrite ?app_nil_r.
      split_and!; try done; try (books_perm Hperm).
      * by rewrite Hpass.
    + apply Z.leb_gt in Hle.
      apply processed_formatted in Hw as Hf. destruct Hf as [_ Hn].
      simpl in Hn.
      exists counted, started, dropped. books_norm.
      rewrite (uncounted_others _ Hz1), (uncounted_others _ Hz2),
        (writing_others _ Hz1), (writing_others _ Hz2). simpl.
      rewrite ?app_nil_r.
      split_and!; try done; try (books_perm Hperm).
      * apply Forall_app. split; [done|]. constructor; [|done].
        split; [by exists c, n|]. exists counted. split; [done|].
        by rewrite Hn.
  - (* 192: WriteString *)
    simplify_eq/=. destruct Hw as [Hp Hle].
    destruct locked; [|lia].
    assert (sum_list_with wcrit ws1 = 0%nat) as Hz1 by lia.
    assert (sum_list_with wcrit ws2 = 0%nat) as Hz2 by lia.
    apply processed_formatted in Hp as Hf. destruct Hf as [Hf _].
    rewrite (uncounted_others _ Hz1), (uncounted_others _ Hz2) in Hperm, Hok, Hpass |- *.
    rewrite (writing_others _ Hz1), (writing_others _ Hz2) in Hpass.
    simpl in *. rewrite app_nil_r in Hperm, Hok.
    exists counted, started, dropped. books_norm.
    rewrite (uncounted_others _ Hz1), (uncounted_others _ Hz2),
      (writing_others _ Hz1), (writing_others _ Hz2). simpl.
    split_and!; try done; try (books_perm Hperm).
    + rewrite texts_app. simpl. by rewrite Hf, append_nil_r.
    + apply Forall_app; split; [done|]. constructor; [|done]. by exists c, n.
  - (* 193: totalTokens += tokenCount *)
    simplify_eq/=. destruct Hw as [[c Hp] Hle].
    destruct locked; [|lia].
    assert (sum_list_with wcrit ws1 = 0%nat) as Hz1 by lia.
    assert (sum_list_with wcrit ws2 = 0%nat) as Hz2 by lia.
    apply processed_formatted in Hp as Hf. destruct Hf as [_ Hn].
    rewrite (uncounted_others _ Hz1), (uncounted_others _ Hz2) in Hperm, Hok, Hpass |- *.
    rewrite (writing_others _ Hz1), (writing_others _ Hz2) in Hpass.
    simpl in *.
    exists (counted ++ [p]), started, dropped. books_norm.
    rewrite (uncounted_others _ Hz1), (uncounted_others _ Hz2),
      (writing_others _ Hz1), (writing_others _ Hz2). simpl.
    rewrite ?app_nil_r.
    split_and!; try done; try (books_perm Hperm).
    + by rewrite tokenSum_snoc, Hn.
    + intros k. destruct (decide (k ≤ length counted)%nat) as [Hk|Hk].
      * rewrite take_app_le by done. apply Hpre.
      * rewrite take_ge by (rewrite length_app; simpl; lia).
        by rewrite tokenSum_snoc, Hn.
    + eapply Forall_impl; [exact Hrej|]. intros q. apply rejectedAt_snoc.
    + intros Hd. destruct (Hdrop Hd) as [? ?].
      split; [done|by apply brokeAt_snoc].
  - (* 195: Printf *)
    simplify_eq/=. books_keep counted started dropped Hperm.
  - (* 197: mu.Unlock() *)
    simplify_eq/=. books_keep counted started dropped Hperm.
  - (* deferred <-sem *)
    destruct nsem as [|k]; simplify_eq/=.
    books_keep counted started dropped Hperm.
  - (* deferred wg.Done() *)
    destruct nwg as [|k]; simplify_eq/=.
    books_keep counted started dropped Hperm.
Qed.

Lemma Books_run files schedule : ∀ s s' log,
  Inv files s → Books files s log → run schedule s = Some s' →
  Inv files s' ∧ Books files s' (log ++ decisions schedule s).
Proof.
  induction schedule as [|t schedule IH]; intros s s' log HI HB; simpl.
  - intros [= <-]. by rewrite app_nil_r.
  - destruct (step_thread t s) as [s1|] eqn:Hstep; simpl; [|done].
    intros Hrun. rewrite app_assoc. apply IH; [| |done].
    + eapply Inv_step; [done|]. by exists t.
    + destruct t as [|i];
        [by apply Books_step_main|by eapply Books_step_worker].
Qed.

Lemma done_terminal files s s' :
  Inv files s → main s = MDone → ¬ step s s'.
Proof.
  intros HI Hd [[|i] Hstep].
  - apply step_thread_main in Hstep as (? & ? & ? & Hstep & _).
    rewrite Hd in Hstep. done.
  - apply step_thread_worker in Hstep as (ws1 & ? & ? & ? & ? & ? & Hw & _).
    rewrite (inv_done _ _ HI Hd) in Hw. by destruct ws1.
Qed.

(** C10.  When [collectFilesContent] returns, after a run under any
    schedule, the content is exactly the concatenation of the formatted
    texts of the budget-accepted files of that run: [acceptedBy] lists the
    files for which the test of line 191 passed, in the order of the tests.
    Each text is whole and nothing stands between them; a candidate occurs
    among the accepted files at most as often as in the candidate list;
    the accepted files were processed without error and are the ones
    counted in [totalTokens], every partial sum within the budget.  Every
    other candidate is accounted for: the candidate list is the files
    handed to goroutines followed by the files the loop dropped at line
    172, which it did only with [totalTokens] at the limit; the files
    handed out are the accepted ones, the ones for which the test of line
    191 failed, and the ones [processFile] failed on.  No goroutine is left
    and no step can follow. *)
Theorem C10_content_is_concatenation files schedule s fileTree content :
  run schedule (init files) = Some s →
  returned files s = Some (fileTree, content) →
  content = texts (acceptedBy schedule files)
  ∧ acceptedBy schedule files ⊆+ files
  ∧ Forall (λ path, ∃ text n, processed path text n) (acceptedBy schedule files)
  ∧ totalTokens (sh s) = tokenSum (acceptedBy schedule files)
  ∧ (∀ k, tokenSum (take k (acceptedBy schedule files)) ≤ maxTotalTokens)
  ∧ (∃ dispatched dropped,
       files = dispatched ++ dropped
       ∧ dispatched ≡ₚ acceptedBy schedule files ++ rejectedBy schedule files
                        ++ failedBy schedule files
       ∧ (dropped ≠ [] → brokeAt (acceptedBy schedule files)))
  ∧ Forall (rejectedAt (acceptedBy schedule files)) (rejectedBy schedule files)
  ∧ Forall failedFile (failedBy schedule files)
  ∧ workers s = []
  ∧ (∀ s', ¬ step s s').
Proof.
  intros Hrun Hret.
  destruct (Books_run files schedule (init files) s []
              (Inv_init files) (Books_init files) Hrun) as [HI HB].
  unfold acceptedBy, rejectedBy, failedBy.
  change ([] ++ decisions schedule (init files))
    with (decisions schedule (init files)) in HB.
  unfold returned in Hret.
  destruct (main s) eqn:Hmain; try discriminate. injection Hret as _ <-.
  pose proof (inv_done _ _ HI Hmain) as Hws.
  destruct HB as (counted & started & dropped
                  & Hc & Ht & Hok & Hpre & Hfiles & Hperm & Hpass & Hrej
                  & Hfail & Hdrop).
  rewrite Hws, Hmain in *. simpl in *. rewrite !app_nil_r in *.
  rewrite Hpass.
  split_and!; try done.
  - rewrite Hfiles. etrans; [|apply submseteq_inserts_r; reflexivity].
    rewrite Hperm. apply submseteq_inserts_r. reflexivity.
  - exists started, dropped. split_and!; [done|done|].
    intros Hd. by destruct (Hdrop Hd).
  - intros s'. by eapply done_terminal.
Qed.

Lemma run_reachable schedule s s' :
  run schedule s = Some s' → rtc step s s'.
Proof.
  revert s. induction schedule as [|t schedule IH]; intros s; simpl.
  - by intros [= ->].
  - destruct (step_thread t s) as [s1|] eqn:Hstep; simpl; [|done].
    intros Hrun. eapply rtc_l; [by exists t|by apply IH].
Qed.

Lemma run_app schedule1 schedule2 s :
  run (schedule1 ++ schedule2) s = run schedule1 s ≫= run schedule2.
Proof.
  revert s. induction schedule1 as [|t schedule1 IH]; intros s; simpl; [done|].
  destruct (step_thread t s) as [s1|]; simpl; [apply IH|done].
Qed.

(** Every reachable state is the end of a run under some schedule. *)
Lemma reachable_run files s :
  reachable files s → ∃ schedule, run schedule (init files) = Some s.
Proof.
  unfold reachable. revert s. apply rtc_ind_r.
  - by exists [].
  - intros s1 s2 _ [t Hstep] [schedule Hrun].
    exists (schedule ++ [t]). rewrite run_app, Hrun. simpl. by rewrite Hstep.
Qed.

(** The program can always return: from the state in which the loop is
    about to take the next file and no goroutine is running, the schedule
    that lets each goroutine finish before the next file is dispatched
    reaches line 205. *)
Lemma run_completes_from files : ∀ total content out,
  ∃ schedule s,
    run schedule
      {| sh := {| totalTokens := total; collectedContent := content;
                  mu := false; sem := 0; wg := 0; stdout := out |};
         main := MLoop files; workers := [] |} = Some s
    ∧ main s = MDone.
Proof.
  induction files as [|p files IH]; intros total content out.
  { eexists [Main; Main], _. split; reflexivity. }
  destruct (maxTotalTokens <=? total) eqn:Hfull.
  { eexists (replicate 4 Main), _. simpl. rewrite Hfull. simpl.
    split; reflexivity. }
  assert (∀ total' content' out',
            ∃ schedule s,
              run schedule
                {| sh := {| totalTokens := total'; collectedContent := content';
                            mu := false; sem := 1; wg := 1; stdout := out' |};
                   main := MLoop files; workers := [(p, WRelease)] |} = Some s
              ∧ main s = MDone) as Hexit.
  { intros total' content' out'.
    destruct (IH total' content' out') as (schedule & s & Hrun & Hdone).
    exists (replicate 2 (Worker 0) ++ schedule), s.
    rewrite run_app. simpl. done. }
  destruct (processFile fs p) as [[[c n]|err] t] eqn:Hp.
  - destruct (add_int total n <=? maxTotalTokens) eqn:Hle.
    + destruct (Hexit (add_int total n) (content +:+ c) (out ++ prints t))
        as (schedule & s & Hrun & Hdone).
      exists (replicate 6 Main ++ replicate 6 (Worker 0) ++ schedule), s.
      rewrite !run_app. simpl. rewrite Hfull. simpl. rewrite Hp. simpl.
      rewrite Hle. simpl. done.
    + destruct (Hexit total content
                  ((out ++ prints t)
                   ++ ["Skipping file " +:+ p +:+ " to stay within token limit." +:+ nl]))
        as (schedule & s & Hrun & Hdone).
      exists (replicate 6 Main ++ replicate 5 (Worker 0) ++ schedule), s.
      rewrite !run_app. simpl. rewrite Hfull. simpl. rewrite Hp. simpl.
      rewrite Hle. simpl. done.
  - destruct (Hexit total content
                (out ++ prints t
                     ++ ["Error processing file " +:+ p +:+ ": " +:+ err +:+ nl]))
      as (schedule & s & Hrun & Hdone).
    exists (replicate 6 Main ++ [Worker 0] ++ schedule), s.
    rewrite !run_app. simpl. rewrite Hfull. simpl. rewrite Hp. simpl. done.
Qed.

Lemma run_completes files :
  ∃ s, reachable files s ∧ main s = MDone.
Proof.
  destruct (run_completes_from files 0 "" []) as (schedule & s & Hrun & Hdone).
  exists s. split; [|done]. by eapply run_reachable.
Qed.

(** X1.  Mutual exclusion: at most one thread is between [mu.Lock()] and
    [mu.Unlock()], and there is one exactly when [mu] is locked. *)
Theorem mutual_exclusion files s :
  reachable files s →
  (holders s ≤ 1)%nat ∧ (holders s = 1%nat ↔ mu (sh s) = true).
Proof.
  intros Hr. pose proof (inv_mutex _ _ (Inv_reachable _ _ Hr)) as H.
  destruct (mu (sh s)); split; try lia; split; first [done|lia].
Qed.

Lemma slots_step s s' :
  sem (sh s) = (mslot (main s) + sum_list_with wslot (workers s))%nat →
  (sem (sh s) ≤ maxGoroutines)%nat →
  step s s' →
  sem (sh s') = (mslot (main s') + sum_list_with wslot (workers s'))%nat
  ∧ (sem (sh s') ≤ maxGoroutines)%nat.
Proof.
  intros Hsem Hle [[|i] Hstep].
  - apply step_thread_main in Hstep as (sh' & pc' & new & Hstep & ->).
    destruct s as [[total content locked nsem nwg out] pc ws]. simpl in *.
    destruct pc as [[|p fl]|p fl| |p fl|p fl|p fl|p fl| |]; simpl in *;
      repeat case_match; simplify_eq/=;
      rewrite ?app_nil_r, ?sum_list_with_app; simpl;
      try (split; lia).
    apply Nat.ltb_lt in H. unfold maxGoroutines in *. split; lia.
  - apply step_thread_worker in Hstep
      as (ws1 & p & pc & ws2 & sh' & next & Hsplit & Hstep & ->).
    destruct s as [[total content locked nsem nwg out] mpc ws].
    simpl in *. subst ws. rewrite sum_list_with_app in Hsem. simpl in Hsem.
    destruct pc; simpl in Hstep; repeat case_match; simplify_eq/=;
      rewrite ?sum_list_with_app; simpl; split; lia.
Qed.

(** X2.  The pool is bounded: at most [maxGoroutines] goroutines hold a slot of
    [sem] at any time. *)
Theorem pool_bounded files s :
  reachable files s →
  sem (sh s) = (mslot (main s) + sum_list_with wslot (workers s))%nat
  ∧ (sum_list_with wslot (workers s) ≤ maxGoroutines)%nat.
Proof.
  intros Hr.
  assert (sem (sh s) = (mslot (main s) + sum_list_with wslot (workers s))%nat
          ∧ (sem (sh s) ≤ maxGoroutines)%nat) as [H1 H2].
  { revert s Hr. unfold reachable. apply rtc_ind_r.
    - simpl. unfold maxGoroutines. split; lia.
    - intros s1 s2 _ Hstep [IH1 IH2]. by eapply slots_step. }
  split; [done|lia].
Qed.

(** X3.  The program can return, whatever the candidate list is: some
    interleaving reaches line 205. *)
Theorem can_return files :
  ∃ s content,
    reachable files s
    ∧ returned files s = Some (buildFileTree files, content).
Proof.
  destruct (run_completes files) as (s & Hr & Hdone).
  exists s, (collectedContent (sh s)). split; [done|].
  unfold returned. by rewrite Hdone.
Qed.

(** *** No deadlock, no endless run *)

Lemma slots_reachable files s :
  reachable files s →
  sem (sh s) = (mslot (main s) + sum_list_with wslot (workers s))%nat
  ∧ (sem (sh s) ≤ maxGoroutines)%nat.
Proof.
  revert s. unfold reachable. apply rtc_ind_r.
  - simpl. unfold maxGoroutines. split; lia.
  - intros s1 s2 _ Hstep [IH1 IH2]. by eapply slots_step.
Qed.

Lemma sum_positive_elem {A} (f : A → nat) (l : list A) :
  (0 < sum_list_with f l)%nat → ∃ i x, l !! i = Some x ∧ (0 < f x)%nat.
Proof.
  induction l as [|x l IH]; simpl; [lia|]. intros Hpos.
  destruct (decide (0 < f x)%nat) as [Hx|Hx].
  - by exists 0%nat, x.
  - destruct IH as (i & y & Hi & Hy); [lia|]. by exists (S i), y.
Qed.

Lemma worker_step_enabled s i p pc sh' next :
  workers s !! i = Some (p, pc) →
  wstep p pc (sh s) = Some (sh', next) →
  ∃ s', step s s'.
Proof.
  intros Hi Hw. eexists. exists (Worker i). unfold step_thread.
  rewrite Hi. simpl. rewrite Hw. simpl. reflexivity.
Qed.

Lemma main_step_enabled s sh' pc' new :
  mstep (main s) (sh s) = Some (sh', pc', new) → ∃ s', step s s'.
Proof.
  intros Hm. eexists. exists Main. unfold step_thread.
  rewrite Hm. simpl. reflexivity.
Qed.

(** A goroutine is blocked only at [mu.Lock()], while the mutex is held. *)
Lemma worker_blocked_on_lock files s i p pc :
  Inv files s →
  sem (sh s) = (mslot (main s) + sum_list_with wslot (workers s))%nat →
  workers s !! i = Some (p, pc) →
  (∃ s', step s s')
  ∨ ((∃ content n, pc = WLock content n) ∧ mu (sh s) = true).
Proof.
  intros HI Hsem Hi.
  pose proof (inv_wg _ _ HI) as Hwg.
  assert ((p, pc) ∈ workers s) as Hin by (by eapply list_elem_of_lookup_2).
  pose proof (sum_list_with_in _ wslot _ Hin) as Hslot.
  assert (0 < length (workers s))%nat as Hlen.
  { apply lookup_lt_Some in Hi. lia. }
  destruct pc as [|c n|c n|c n|n| | | |].
  - left. destruct (processFile fs p) as [[[c n]|err] t] eqn:Hp;
      eapply worker_step_enabled; [done| |done|]; simpl; rewrite Hp; done.
  - destruct (mu (sh s)) eqn:Hmu; [right; eauto|].
    left. eapply worker_step_enabled; [done|]. simpl. by rewrite Hmu.
  - left. destruct (add_int (totalTokens (sh s)) n <=? maxTotalTokens) eqn:Hle;
      eapply worker_step_enabled; [done| |done|]; simpl; rewrite Hle; done.
  - left. by eapply worker_step_enabled.
  - left. by eapply worker_step_enabled.
  - left. by eapply worker_step_enabled.
  - left. by eapply worker_step_enabled.
  - left. change (wslot (p, WRelease)) with 1%nat in Hslot.
    destruct (sem (sh s)) as [|k] eqn:Hk; [lia|].
    eapply worker_step_enabled; [done|]. simpl. by rewrite Hk.
  - left. destruct (wg (sh s)) as [|k] eqn:Hk; [lia|].
    eapply worker_step_enabled; [done|]. simpl. by rewrite Hk.
Qed.

Lemma main_in_section_steps s :
  mcrit (main s) = 1%nat → ∃ s', step s s'.
Proof.
  intros Hc. destruct (main s) eqn:Hmain; simpl in Hc; try lia.
  - destruct (maxTotalTokens <=? totalTokens (sh s)) eqn:Hfull;
      eapply main_step_enabled; rewrite Hmain; simpl; rewrite Hfull; done.
  - eapply main_step_enabled. rewrite Hmain. reflexivity.
  - eapply main_step_enabled. rewrite Hmain. reflexivity.
Qed.

(** While the mutex is held, the thread that holds it can move. *)
Lemma holder_can_step files s :
  Inv files s → mu (sh s) = true → ∃ s', step s s'.
Proof.
  intros HI Hmu. pose proof (inv_mutex _ _ HI) as Hh.
  rewrite Hmu in Hh. unfold holders in Hh.
  destruct (decide (mcrit (main s) = 1%nat)) as [Hm|Hm];
    [by apply main_in_section_steps|].
  destruct (sum_positive_elem wcrit (workers s)) as (i & [p pc] & Hi & Hc).
  { assert (mcrit (main s) ≤ 1)%nat by (destruct (main s); simpl; lia). lia. }
  unfold wcrit in Hc.
  destruct pc as [|c n|c n|c n|n| | | |]; simpl in Hc; try lia.
  - destruct (add_int (totalTokens (sh s)) n <=? maxTotalTokens) eqn:Hle;
      eapply worker_step_enabled; [done| |done|]; simpl; rewrite Hle; done.
  - by eapply worker_step_enabled.
  - by eapply worker_step_enabled.
  - by eapply worker_step_enabled.
  - by eapply worker_step_enabled.
Qed.

Lemma some_worker_can_step files s i w :
  Inv files s →
  sem (sh s) = (mslot (main s) + sum_list_with wslot (workers s))%nat →
  workers s !! i = Some w →
  ∃ s', step s s'.
Proof.
  intros HI Hsem Hi. destruct w as [p pc].
  destruct (worker_blocked_on_lock _ _ _ _ _ HI Hsem Hi) as [?|[_ Hmu]]; [done|].
  by eapply holder_can_step.
Qed.

(** X4.  No deadlock: in every reachable state from which the function has
    not returned, some thread can execute its next statement. *)
Theorem deadlock_free files s :
  reachable files s → main s ≠ MDone → ∃ s', step s s'.
Proof.
  intros Hr Hnd. pose proof (Inv_reachable _ _ Hr) as HI.
  destruct (slots_reachable _ _ Hr) as [Hsem Hle].
  pose proof (inv_wg _ _ HI) as Hwg.
  destruct (mu (sh s)) eqn:Hmu; [by eapply holder_can_step|].
  destruct (main s) as [[|p fl]|p fl| |p fl|p fl|p fl|p fl| |] eqn:Hmain.
  - eapply main_step_enabled. rewrite Hmain. reflexivity.
  - eapply main_step_enabled. rewrite Hmain. simpl. by rewrite Hmu.
  - apply main_in_section_steps. by rewrite Hmain.
  - apply main_in_section_steps. by rewrite Hmain.
  - apply main_in_section_steps. by rewrite Hmain.
  - eapply main_step_enabled. rewrite Hmain. reflexivity.
  - (* 179: sem <- *)
    destruct (sem (sh s) <? maxGoroutines)%nat eqn:Hfree.
    { eapply main_step_enabled. rewrite Hmain. simpl. by rewrite Hfree. }
    apply Nat.ltb_ge in Hfree. simpl in Hsem. unfold maxGoroutines in *.
    destruct (sum_positive_elem wslot (workers s)) as (i & w & Hi & _); [lia|].
    eapply some_worker_can_step; [done| |done]. by rewrite Hmain.
  - eapply main_step_enabled. rewrite Hmain. reflexivity.
  - (* 201: wg.Wait() *)
    destruct (wg (sh s)) as [|k] eqn:Hk.
    { eapply main_step_enabled. rewrite Hmain. simpl. by rewrite Hk. }
    simpl in Hwg. destruct (workers s) as [|w ws] eqn:Hws; [simpl in Hwg; lia|].
    eapply (some_worker_can_step files s 0%nat w); [done| |by rewrite Hws].
    by rewrite Hmain, Hws.
  - done.
Qed.

Lemma step_decreases s s' : step s s' → (remaining s' < remaining s)%nat.
Proof.
  intros [[|i] Hstep]; unfold remaining.
  - apply step_thread_main in Hstep as (sh' & pc' & new & Hstep & ->).
    destruct s as [sh0 pc ws]. simpl in *.
    destruct pc as [[|p fl]|p fl| |p fl|p fl|p fl|p fl| |]; simpl in *;
      repeat case_match; simplify_eq/=;
      rewrite ?app_nil_r, ?sum_list_with_app; simpl; lia.
  - apply step_thread_worker in Hstep
      as (ws1 & p & pc & ws2 & sh' & next & Hsplit & Hstep & ->).
    destruct s as [sh0 mpc ws]. simpl in *. subst ws.
    rewrite !sum_list_with_app. simpl.
    destruct pc; simpl in Hstep; repeat case_match; simplify_eq/=; lia.
Qed.

Lemma run_length schedule : ∀ s s',
  run schedule s = Some s' →
  (length schedule + remaining s' ≤ remaining s)%nat.
Proof.
  induction schedule as [|t schedule IH]; intros s s'; simpl.
  - intros [= ->]. lia.
  - destruct (step_thread t s) as [s1|] eqn:Hstep; simpl; [|done].
    intros Hrun. apply IH in Hrun.
    assert (step s s1) as Hs by (by exists t).
    apply step_decreases in Hs. lia.
Qed.

(** X5.  No endless run: whatever the interleaving, the pool executes at
    most [14 * n + 2] statements for [n] candidate files, and fewer by as
    many as the threads still have to execute. *)
Theorem runs_are_bounded files schedule s :
  run schedule (init files) = Some s →
  (length schedule + remaining s ≤ 14 * length files + 2)%nat.
Proof.
  intros Hrun. apply run_length in Hrun.
  unfold remaining in Hrun at 2. simpl in Hrun. lia.
Qed.

(** *** What the walk collects *)

Lemma walk_collects includePatterns ignorePatterns d : ∀ path files,
  readable (prune ignorePatterns path d) = true →
  walkDir (walkFn includePatterns ignorePatterns) path d files
  = (files ++ List.filter (kept includePatterns ignorePatterns)
                (allFiles path (prune ignorePatterns path d)),
     None).
Proof.
  induction d as [name|name entries readErr IH] using node_rect';
    intros path files Hread.
  - simpl. unfold kept.
    destruct (isIgnored path ignorePatterns); simpl; [by rewrite app_nil_r|].
    destruct (isIncluded path includePatterns); simpl; [done|].
    by rewrite app_nil_r.
  - simpl in *. destruct (isIgnored path ignorePatterns) eqn:Hig.
    { simpl. by rewrite app_nil_r. }
    simpl in Hread. destruct readErr as [msg|]; [done|].
    simpl. clear Hig. revert files Hread.
    induction IH as [|e entries He _ IHe]; intros files Hread; simpl in *.
    { by rewrite app_nil_r. }
    apply andb_true_iff in Hread as [He1 He2].
    rewrite nodeName_prune.
    rewrite (He _ files He1).
    rewrite (IHe _ He2).
    by rewrite List.filter_app, app_assoc.
Qed.

(** X6.  When every directory the walk enters can be read, the candidate
    list holds exactly the files of the tree that lie under no excluded
    directory, are not excluded themselves and are included, in depth-first
    order, and nothing is printed. *)
Theorem discover_collects includePatterns ignorePatterns root :
  readable (prune ignorePatterns "." root) = true →
  discover includePatterns ignorePatterns (LstatOk root)
  = (List.filter (kept includePatterns ignorePatterns)
       (allFiles "." (prune ignorePatterns "." root)),
     []).
Proof.
  intros Hread. unfold discover, WalkDir.
  by rewrite (walk_collects _ _ _ _ [] Hread).
Qed.

(** *** The tree listing and the formatted text *)

Lemma append_cons c (a b : string) : String c a +:+ b = String c (a +:+ b).
Proof. reflexivity. Qed.

Lemma rawLines_line cur line rest :
  hasByte "010" line = false →
  rawLines cur (line +:+ nl +:+ rest) = (cur +:+ line) :: rawLines "" rest.
Proof.
  revert cur. induction line as [|c line IH]; intros cur Hno.
  - change ("" +:+ nl +:+ rest) with (String "010" rest). simpl.
    by rewrite append_nil_r.
  - simpl in Hno. apply orb_false_iff in Hno as [Hc Hno].
    rewrite append_cons. simpl. rewrite Hc. rewrite (IH _ Hno).
    by rewrite append_assoc.
Qed.

(** X7.  The tree listing has one line per candidate, in the order of the
    candidate list: cut at its newlines it gives the list back, provided no
    path holds a newline; so two candidate lists with the same listing are
    the same list. *)
Theorem buildFileTree_lines files :
  Forall (λ path, hasByte "010" path = false) files →
  rawLines "" (buildFileTree files) = files
  ∧ ∀ files', Forall (λ path, hasByte "010" path = false) files' →
      buildFileTree files' = buildFileTree files → files' = files.
Proof.
  assert (∀ l, Forall (λ path, hasByte "010" path = false) l →
               rawLines "" (buildFileTree l) = l) as Hround.
  { induction 1 as [|p l Hp _ IH]; [done|].
    simpl. rewrite (rawLines_line "" p _ Hp). by rewrite IH. }
  intros Hfiles. split; [by apply Hround|].
  intros files' Hfiles' Heq.
  rewrite <- (Hround _ Hfiles'), <- (Hround _ Hfiles). by rewrite Heq.
Qed.

Lemma HasPrefix_app (a b : string) : HasPrefix (a +:+ b) a = true.
Proof.
  induction a as [|c a IH]; [by destruct b|].
  rewrite append_cons. simpl. by rewrite Ascii.eqb_refl.
Qed.

Lemma HasSuffix_app (a b : string) : HasSuffix (a +:+ b) b = true.
Proof.
  induction a as [|c a IH].
  - change ("" +:+ b) with b. destruct b; simpl; [done|].
    by rewrite Ascii.eqb_refl, String.eqb_refl.
  - rewrite append_cons. simpl. rewrite IH. apply orb_true_r.
Qed.

Lemma joined_lines_end (lines : list string) :
  foldr (λ line acc, line +:+ nl +:+ acc) "" lines = ""
  ∨ ∃ body, foldr (λ line acc, line +:+ nl +:+ acc) "" lines = body +:+ nl.
Proof.
  induction lines as [|l lines IH]; [by left|]. right. simpl.
  destruct IH as [->|[body ->]].
  - exists l. by rewrite append_nil_r.
  - exists (l +:+ nl +:+ body). by rewrite !append_assoc.
Qed.

(** X8.  What [processFile] returns without error is either the empty text
    with zero tokens (the file was skipped) or a text that starts with the
    header line of the file, ends with an empty line, and comes with the
    token count of exactly that text. *)
Theorem processFile_result path content n :
  (processFile fs path).1 = Ok (content, n) →
  (content = "" ∧ n = 0)
  ∨ (HasPrefix content ("File: " +:+ path +:+ nl) = true
     ∧ HasSuffix content (nl +:+ nl) = true
     ∧ n = countTokens content).
Proof.
  unfold processFile, isBinaryFile, os_Stat, os_Open, file_Read.
  cbn -[maxFileSize Z.ltb Z.to_nat takeBytes scanLines countTokens].
  destruct (fs !! path) as [f|];
    cbn -[maxFileSize Z.ltb Z.to_nat takeBytes scanLines countTokens]; [|done].
  destruct (maxFileSize <? f_size f);
    cbn -[Z.to_nat takeBytes scanLines countTokens].
  { intros [= <- <-]. by left. }
  destruct (f_open f); cbn -[Z.to_nat takeBytes scanLines countTokens]; [done|].
  destruct (f_read f); cbn -[Z.to_nat takeBytes scanLines countTokens]; [done|].
  destruct (hasNUL _); cbn -[Z.to_nat takeBytes scanLines countTokens].
  { intros [= <- <-]. by left. }
  destruct (scanLines (f_bytes f)) as [lines|]; cbn -[countTokens]; [|done].
  intros [= <- <-]. right. split; [|split; [|done]].
  - replace ("File: " +:+ path +:+ nl
             +:+ foldr (λ line acc, line +:+ nl +:+ acc) "" lines +:+ nl)
      with (("File: " +:+ path +:+ nl)
            +:+ foldr (λ line acc, line +:+ nl +:+ acc) "" lines +:+ nl)
      by (by rewrite !append_assoc).
    apply HasPrefix_app.
  - destruct (joined_lines_end lines) as [->|[body ->]].
    + change ("" +:+ nl) with nl.
      replace ("File: " +:+ path +:+ nl +:+ nl)
        with (("File: " +:+ path) +:+ nl +:+ nl)
        by (by rewrite !append_assoc).
      apply HasSuffix_app.
    + replace ("File: " +:+ path +:+ nl +:+ (body +:+ nl) +:+ nl)
        with (("File: " +:+ path +:+ nl +:+ body) +:+ nl +:+ nl)
        by (by rewrite !append_assoc).
      apply HasSuffix_app.
Qed.

(** X9.  [processFile] opens a file only when [os.Stat] succeeds and the
    size is at most 1 MiB (a file of exactly 1 MiB is read); for a path
    that does not exist it does nothing but the [os.Stat] and returns an
    error that names the path. *)
Theorem processFile_size_gate path :
  (fs !! path = None →
   ∃ err, processFile fs path
          = (Fail ("Error stating file " +:+ path +:+ ": " +:+ err),
             [EvStat path]))
  ∧ (∀ f, fs !! path = Some f →
       (EvOpen path ∈ (processFile fs path).2 ↔ f_size f ≤ maxFileSize)).
Proof.
  split.
  - intros Hnone. eexists. unfold processFile, os_Stat.
    cbn -[maxFileSize Z.ltb]. rewrite Hnone. reflexivity.
  - intros f Hf.
    unfold processFile, isBinaryFile, os_Stat, os_Open, file_Read.
    cbn -[maxFileSize Z.ltb Z.to_nat takeBytes scanLines countTokens].
    rewrite Hf.
    cbn -[maxFileSize Z.ltb Z.to_nat takeBytes scanLines countTokens].
    destruct (maxFileSize <? f_size f) eqn:Hsize;
      cbn -[maxFileSize Z.to_nat takeBytes scanLines countTokens].
    + apply Z.ltb_lt in Hsize. split; [|lia].
      intros Hin. repeat (apply elem_of_cons in Hin as [Hin|Hin]; [done|]).
      by apply elem_of_nil in Hin.
    + apply Z.ltb_ge in Hsize. split; [done|]. intros _.
      destruct (f_open f);
        cbn -[maxFileSize Z.to_nat takeBytes scanLines countTokens].
      { apply elem_of_cons. right. apply elem_of_cons. by left. }
      destruct (f_read f);
        cbn -[maxFileSize Z.to_nat takeBytes scanLines countTokens].
      { apply elem_of_cons. right. apply elem_of_cons. by left. }
      destruct (hasNUL _);
        cbn -[maxFileSize Z.to_nat takeBytes scanLines countTokens].
      { apply elem_of_cons. right. apply elem_of_cons. by left. }
      destruct (scanLines (f_bytes f)); cbn -[countTokens];
        apply elem_of_cons; right; apply elem_of_cons; by left.
Qed.

Lemma lfTerminated_cons c s :
  s ≠ "" → lfTerminated (String c s) = lfTerminated s.
Proof. by destruct s. Qed.

(** The lines of a text, each with its newline, give the text back, with a
    newline added when the last line had none. *)
Lemma joined_rawLines data : ∀ cur,
  foldr (λ line acc, line +:+ nl +:+ acc) "" (rawLines cur data)
  = match data with
    | EmptyString => if String.eqb cur "" then "" else cur +:+ nl
    | _ => cur +:+ data +:+ (if lfTerminated data then "" else nl)
    end.
Proof.
  induction data as [|c r IH]; intros cur.
  - simpl. destruct (String.eqb cur ""); [done|]. simpl.
    by rewrite append_nil_r.
  - cbn [rawLines]. destruct (Ascii.eqb c "010") eqn:Hc.
    + apply Ascii.eqb_eq in Hc as ->. cbn [foldr]. rewrite IH.
      destruct r as [|c' r'].
      * simpl. by rewrite !append_nil_r.
      * rewrite (lfTerminated_cons "010" (String c' r')) by done. reflexivity.
    + rewrite IH. destruct r as [|c' r'].
      * simpl. rewrite Hc.
        assert (String.eqb (cur +:+ String c "") "" = false) as ->.
        { destruct cur; reflexivity. }
        by rewrite !append_assoc.
      * rewrite (lfTerminated_cons c (String c' r')) by done.
        by rewrite !append_assoc.
Qed.

Lemma rawLines_no_byte b data : ∀ cur,
  hasByte b cur = false → hasByte b data = false →
  Forall (λ line, hasByte b line = false) (rawLines cur data).
Proof.
  assert (∀ x y, hasByte b x = false → hasByte b y = false →
                 hasByte b (x +:+ y) = false) as Happ.
  { induction x as [|c x IHx]; intros y Hx Hy; [done|].
    rewrite append_cons. simpl in *. apply orb_false_iff in Hx as [-> Hx].
    by apply IHx. }
  induction data as [|c r IH]; intros cur Hcur Hdata; simpl.
  - destruct (String.eqb cur ""); by repeat constructor.
  - simpl in Hdata. apply orb_false_iff in Hdata as [Hc Hr].
    destruct (Ascii.eqb c "010").
    + constructor; [done|]. by apply IH.
    + apply IH; [|done]. apply Happ; [done|]. simpl. by rewrite Hc.
Qed.

Lemma dropCR_id line : hasByte "013" line = false → dropCR line = line.
Proof.
  induction line as [|c r IH]; [done|]. simpl. intros Hno.
  apply orb_false_iff in Hno as [Hc Hr].
  destruct r as [|c' r']; [by rewrite Hc|].
  by rewrite (IH Hr).
Qed.

Lemma dropCR_lines lines :
  Forall (λ line, hasByte "013" line = false) lines → dropCR <$> lines = lines.
Proof.
  induction 1 as [|l ls Hl _ IH]; [done|].
  rewrite fmap_cons, IH. by rewrite dropCR_id.
Qed.

(** X10.  A text file is copied verbatim.  For a file of at most 1 MiB that
    opens and reads without error, has no NUL among its first 8000 bytes,
    no carriage return and no line of 64 KiB or more, the formatted text is
    the header line, the bytes of the file, a newline if the last line has
    none, and one empty line; the token count is the one of that text. *)
Theorem processFile_verbatim path f :
  fs !! path = Some f →
  f_size f ≤ maxFileSize →
  f_open f = None →
  f_read f = None →
  hasNUL (takeBytes (Z.to_nat 8000) (f_bytes f)) = false →
  hasByte "013" (f_bytes f) = false →
  forallb (λ l, Z.of_nat (String.length l) <? maxScanTokenSize)
    (rawLines "" (f_bytes f)) = true →
  let text := "File: " +:+ path +:+ nl +:+ f_bytes f
              +:+ (if lfTerminated (f_bytes f) then "" else nl) +:+ nl in
  (processFile fs path).1 = Ok (text, countTokens text).
Proof.
  intros Hf Hsize Hopen Hread Hnul Hcr Hshort text.
  unfold processFile, isBinaryFile, os_Stat, os_Open, file_Read, scanLines.
  cbn -[maxFileSize Z.ltb Z.to_nat takeBytes rawLines countTokens
        maxScanTokenSize].
  rewrite Hf.
  cbn -[maxFileSize Z.ltb Z.to_nat takeBytes rawLines countTokens
        maxScanTokenSize].
  apply Z.ltb_ge in Hsize. rewrite Hsize, Hopen.
  cbn -[maxFileSize Z.ltb Z.to_nat takeBytes rawLines countTokens
        maxScanTokenSize].
  rewrite Hread.
  cbn -[maxFileSize Z.ltb Z.to_nat takeBytes rawLines countTokens
        maxScanTokenSize].
  rewrite Hnul.
  cbn -[maxFileSize Z.ltb Z.to_nat takeBytes rawLines countTokens
        maxScanTokenSize].
  rewrite Hshort. cbn -[rawLines countTokens].
  assert (dropCR <$> rawLines "" (f_bytes f) = rawLines "" (f_bytes f)) as ->.
  { apply dropCR_lines. by apply rawLines_no_byte. }
  rewrite joined_rawLines.
  assert (match f_bytes f with
          | EmptyString => if String.eqb "" "" then "" else "" +:+ nl
          | String _ _ =>
              "" +:+ f_bytes f +:+ (if lfTerminated (f_bytes f) then "" else nl)
          end
          = f_bytes f +:+ (if lfTerminated (f_bytes f) then "" else nl)) as ->.
  { by destruct (f_bytes f). }
  unfold text. by rewrite !append_assoc.
Qed.



(** *** The patterns [main] assembles *)

Lemma Contains_empty s : Contains s "" = true.
Proof. by destruct s. Qed.

Lemma HasSuffix_empty s : HasSuffix s "" = true.
Proof.
  induction s as [|c s IH]; [done|].
  simpl. by rewrite ?IH, ?orb_true_r.
Qed.

Lemma splitOn_trailing sep s : ∀ cur,
  "" ∈ splitOn sep cur (s +:+ String sep "").
Proof.
  induction s as [|c s IH]; intros cur.
  - change ("" ∈ (if Ascii.eqb sep sep then [cur; ""]
                  else splitOn sep (cur +:+ String sep "") "")).
    rewrite Ascii.eqb_refl. apply elem_of_cons. right. apply elem_of_cons. by left.
  - change ("" ∈ (if Ascii.eqb c sep
                  then cur :: splitOn sep "" (s +:+ String sep "")
                  else splitOn sep (cur +:+ String c "") (s +:+ String sep ""))).
    destruct (Ascii.eqb c sep); [apply elem_of_cons; right|]; apply IH.
Qed.

Lemma flagPatterns_trailing s : "" ∈ flagPatterns (s +:+ ",").
Proof.
  unfold flagPatterns, Split.
  destruct (String.eqb (s +:+ ",") "") eqn:He.
  - destruct s; discriminate He.
  - apply splitOn_trailing.
Qed.

Lemma mainPatterns_ignore includeFlag ignoreFlag gitignoreFlag pattern :
  pattern ∈ defaultIgnorePatterns ++ flagPatterns ignoreFlag →
  pattern ∈ (mainPatterns includeFlag ignoreFlag gitignoreFlag).1.2.
Proof.
  intros Hin. unfold mainPatterns.
  destruct gitignoreFlag; [|done].
  destruct parseGitignore as [gitignorePatterns|err]; [|done].
  change (pattern ∈ (defaultIgnorePatterns ++ flagPatterns ignoreFlag)
                      ++ gitignorePatterns).
  apply elem_of_app. by left.
Qed.

Lemma mainPatterns_include includeFlag ignoreFlag gitignoreFlag :
  (mainPatterns includeFlag ignoreFlag gitignoreFlag).1.1
  = flagPatterns includeFlag.
Proof.
  unfold mainPatterns. destruct gitignoreFlag; [|done].
  by destruct parseGitignore.
Qed.

(** The candidates of the walk are not excluded and are included. *)
Lemma discover_candidates includePatterns ignorePatterns root :
  Forall (λ f, isIgnored f ignorePatterns = false
               ∧ isIncluded f includePatterns = true)
         (discover includePatterns ignorePatterns root).1.
Proof.
  unfold discover.
  pose proof (WalkDir_preserves (walkFn includePatterns ignorePatterns)
    (Forall (λ f, isIgnored f ignorePatterns = false
                  ∧ isIncluded f includePatterns = true)) "." root []
    (λ p d st, walkFn_candidates includePatterns ignorePatterns p d st)
    (Forall_nil_2 _)) as H.
  by destruct (WalkDir (walkFn includePatterns ignorePatterns) "." root []).
Qed.

Lemma isIgnored_elem path patterns pattern :
  pattern ∈ patterns → Match pattern (Base path) ≠ None →
  Contains path pattern = true → isIgnored path patterns = true.
Proof.
  intros Hin Hm Hc. apply isIgnored_true.
  destruct (Match pattern (Base path)) as [m|] eqn:Heq; [|done].
  exists pattern, m. split; [done|]. split; [done|by right].
Qed.



(** X13.  [.gitignore] counts as a whole or not at all: when it cannot be
    opened, or when one of its lines has 64 KiB or more, none of its
    patterns is used, not even those before the long line; [main] reports
    the error and goes on with the patterns it would have had with
    [-gitignore=false]. *)
Theorem gitignore_all_or_nothing includeFlag ignoreFlag file :
  fs !! ".gitignore" = Some file →
  (f_open file ≠ None
   ∨ forallb (λ l, Z.of_nat (String.length l) <? maxScanTokenSize)
       (rawLines "" (f_bytes file)) = false) →
  (mainPatterns includeFlag ignoreFlag true).1
  = (mainPatterns includeFlag ignoreFlag false).1
  ∧ ∃ err, (mainPatterns includeFlag ignoreFlag true).2
           = ["Error parsing .gitignore: " +:+ err +:+ nl].
Proof.
  intros Hf Hbad. unfold mainPatterns, parseGitignore. rewrite Hf.
  destruct (f_open file) as [err|] eqn:Ho.
  { split; [done|]. by exists err. }
  destruct Hbad as [Hbad|Hbad]; [done|].
  unfold scanLines. rewrite Hbad. split; [done|]. by eexists.
Qed.

(** X14.  An empty element in the value of [-ignore], as a trailing comma
    leaves one, excludes everything: the empty pattern occurs in every
    path, the root directory itself is skipped, and the candidate list is
    empty whatever the tree, the include patterns and [.gitignore]. *)
Theorem empty_ignore_element_excludes_all
    includeFlag ignoreFlag gitignoreFlag root :
  Match "" "." ≠ None →
  ("" ∈ flagPatterns ignoreFlag ∨ ∃ s, ignoreFlag = s +:+ ",") →
  mainCandidates includeFlag ignoreFlag gitignoreFlag root = [].
Proof.
  intros Hm Hin.
  assert ("" ∈ flagPatterns ignoreFlag) as Hin'.
  { destruct Hin as [Hin|[s ->]]; [exact Hin|apply flagPatterns_trailing]. }
  clear Hin. unfold mainCandidates.
  pose proof (mainPatterns_ignore includeFlag ignoreFlag gitignoreFlag ""
                ltac:(apply elem_of_app; right; exact Hin')) as Hp.
  destruct (mainPatterns includeFlag ignoreFlag gitignoreFlag)
    as [[inc ign] out]. simpl in Hp.
  assert (isIgnored "." ign = true) as Hig.
  { apply (isIgnored_elem "." ign ""); [exact Hp|exact Hm|apply Contains_empty]. }
  unfold discover, WalkDir.
  destruct root as [msg|[name|name entries readErr]]; simpl;
    rewrite ?Hig; reflexivity.
Qed.

(** X15.  An empty element in the value of [-include] includes every path:
    the empty pattern is a suffix of every path, so the include filter lets
    everything through that is not excluded. *)
Theorem empty_include_element_includes_all
    includeFlag ignoreFlag gitignoreFlag path :
  "" ∈ flagPatterns includeFlag →
  Match "" (Base path) ≠ None →
  isIncluded path (mainPatterns includeFlag ignoreFlag gitignoreFlag).1.1 = true.
Proof.
  intros Hin Hm. rewrite mainPatterns_include.
  unfold isIncluded.
  destruct (length (flagPatterns includeFlag) =? 0)%nat; [done|].
  apply anyIncluded_true.
  destruct (Match "" (Base path)) as [m|] eqn:Heq; [|done].
  exists "", m. split; [done|]. split; [done|]. right. apply HasSuffix_empty.
Qed.

(** X16.  The default patterns exclude by substring: a path in which a
    default pattern such as [bin], [env] or [out] occurs anywhere, in a
    directory name or in the middle of a file name, is never a candidate,
    whatever the flags and [.gitignore] say. *)
Theorem default_patterns_exclude_substrings
    includeFlag ignoreFlag gitignoreFlag root path pattern :
  pattern ∈ defaultIgnorePatterns →
  Contains path pattern = true →
  Match pattern (Base path) ≠ None →
  path ∉ mainCandidates includeFlag ignoreFlag gitignoreFlag root.
Proof.
  intros Hin Hc Hm. unfold mainCandidates.
  pose proof (mainPatterns_ignore includeFlag ignoreFlag gitignoreFlag pattern
                ltac:(apply elem_of_app; by left)) as Hp.
  destruct (mainPatterns includeFlag ignoreFlag gitignoreFlag)
    as [[inc ign] out]. simpl in Hp.
  intros Hcand.
  pose proof (discover_candidates inc ign root) as Hall.
  rewrite Forall_forall in Hall. destruct (Hall _ Hcand) as [Hno _].
  by rewrite (isIgnored_elem path ign pattern) in Hno.
Qed.
(** *** A candidate list that fits the budget *)

Lemma tokensOf_nonneg path : 0 ≤ tokensOf path.
Proof.
  unfold tokensOf.
  destruct (processFile fs path).1 as [[content n]|err] eqn:Hp; [|done].
  by apply (processed_nonneg path content n).
Qed.

Lemma plainSum_nonneg paths : 0 ≤ plainSum paths.
Proof.
  induction paths as [|p paths IH]; simpl; [done|].
  pose proof (tokensOf_nonneg p). lia.
Qed.

Lemma plainSum_app a b : plainSum (a ++ b) = plainSum a + plainSum b.
Proof. induction a as [|p a IH]; simpl; [done|]. rewrite IH. lia. Qed.

Lemma plainSum_perm a b : a ≡ₚ b → plainSum a = plainSum b.
Proof.
  induction 1 as [|p a b _ IH|p q a|a b c _ IH1 _ IH2]; simpl; lia.
Qed.

Lemma plainSum_submseteq a b : a ⊆+ b → plainSum a ≤ plainSum b.
Proof.
  intros Hsub. apply submseteq_Permutation in Hsub as [k Hk].
  rewrite (plainSum_perm _ _ Hk), plainSum_app.
  pose proof (plainSum_nonneg k). lia.
Qed.

Lemma tokenSum_plain paths :
  plainSum paths < 2 ^ 63 → tokenSum paths = plainSum paths.
Proof.
  induction paths as [|p paths IH] using rev_ind; [done|].
  rewrite plainSum_app, tokenSum_snoc. simpl. intros Hlt.
  pose proof (tokensOf_nonneg p). pose proof (plainSum_nonneg paths).
  rewrite IH by lia. rewrite add_int_exact; lia.
Qed.

(** The books at the return statement. *)
Lemma Books_returned files schedule s :
  run schedule (init files) = Some s → main s = MDone →
  ∃ dispatched dropped,
    files = dispatched ++ dropped
    ∧ dispatched ≡ₚ acceptedBy schedule files ++ rejectedBy schedule files
                     ++ failedBy schedule files
    ∧ collectedContent (sh s) = texts (acceptedBy schedule files)
    ∧ Forall (rejectedAt (acceptedBy schedule files)) (rejectedBy schedule files)
    ∧ Forall failedFile (failedBy schedule files)
    ∧ (dropped ≠ [] → brokeAt (acceptedBy schedule files)).
Proof.
  intros Hrun Hmain.
  destruct (Books_run files schedule (init files) s []
              (Inv_init files) (Books_init files) Hrun) as [HI HB].
  unfold acceptedBy, rejectedBy, failedBy.
  change ([] ++ decisions schedule (init files))
    with (decisions schedule (init files)) in HB.
  pose proof (inv_done _ _ HI Hmain) as Hws.
  destruct HB as (counted & started & dropped
                  & Hc & Ht & Hok & Hpre & Hfiles & Hperm & Hpass & Hrej
                  & Hfail & Hdrop).
  rewrite Hws, Hmain in *. simpl in *. rewrite !app_nil_r in *.
  rewrite Hpass. exists started, dropped.
  split_and!; try done. intros Hd. by destruct (Hdrop Hd).
Qed.

(** X17.  Nothing is lost when the candidates fit the budget.  If the token
    counts of all candidates sum to less than [maxTotalTokens], then under
    every schedule no file is refused at line 191 and the loop never leaves
    at line 172: the candidate list is, up to order, the accepted files and
    the files [processFile] failed on, and the content returned holds the
    text of every candidate that was processed without error. *)
Theorem within_budget_nothing_lost files schedule s fileTree content :
  plainSum files < maxTotalTokens →
  run schedule (init files) = Some s →
  returned files s = Some (fileTree, content) →
  rejectedBy schedule files = []
  ∧ files ≡ₚ acceptedBy schedule files ++ failedBy schedule files
  ∧ content = texts (acceptedBy schedule files)
  ∧ (∀ path, path ∈ files → (∃ text n, processed path text n) →
       path ∈ acceptedBy schedule files).
Proof.
  intros Hfit Hrun Hret. unfold returned in Hret.
  destruct (main s) eqn:Hmain; try discriminate. injection Hret as _ <-.
  destruct (Books_returned files schedule s Hrun Hmain)
    as (dispatched & dropped & Hfiles & Hperm & Hc & Hrej & Hfail & Hdrop).
  set (accepted := acceptedBy schedule files) in *.
  set (rejected := rejectedBy schedule files) in *.
  set (failed := failedBy schedule files) in *.
  assert (dispatched ⊆+ files) as Hdisp.
  { rewrite Hfiles. by apply submseteq_inserts_r. }
  assert (∀ l, l ⊆+ dispatched → tokenSum l < maxTotalTokens) as Hsmall.
  { intros l Hl.
    assert (plainSum l ≤ plainSum files) as Hle.
    { apply plainSum_submseteq. by etrans. }
    rewrite tokenSum_plain; unfold maxTotalTokens in *; lia. }
  assert (rejected = []) as Hnone.
  { destruct rejected as [|p rejected'] eqn:Hr; [done|]. exfalso.
    apply Forall_cons in Hrej as [[_ (merged & [rest Hpre] & Hlt)] _].
    specialize (Hsmall (merged ++ [p])).
    rewrite tokenSum_snoc in Hsmall.
    assert (merged ++ [p] ⊆+ dispatched) as Hsub.
    { rewrite Hperm, Hpre. solve_submseteq. }
    specialize (Hsmall Hsub). lia. }
  assert (dropped = []) as Hnodrop.
  { destruct dropped as [|p dropped']; [done|]. exfalso.
    destruct Hdrop as (merged & [rest Hpre] & Hge); [done|].
    specialize (Hsmall merged).
    assert (merged ⊆+ dispatched) as Hsub.
    { rewrite Hperm, Hpre. solve_submseteq. }
    specialize (Hsmall Hsub). lia. }
  rewrite Hnone in Hperm. simpl in Hperm.
  rewrite Hnodrop, app_nil_r in Hfiles. subst dispatched.
  split_and!; try done.
  intros path Hin [text [n Hp]].
  rewrite Hperm in Hin. apply elem_of_app in Hin as [Hin|Hin]; [done|].
  rewrite Forall_forall in Hfail. destruct (Hfail _ Hin) as [err Herr].
  unfold processed in Hp. congruence.
Qed.
End Collect.

(** ** The model of [filepath.Match] is total: the fuel never runs out *)

Lemma decodeRune_width s : s ≠ "" → (1 ≤ (decodeRune s).2)%nat.
Proof.
  destruct s as [|c0 r]; [done|]. intros _. unfold decodeRune.
  repeat case_match; simpl; lia.
Qed.

Lemma dropBytes_length n : ∀ s,
  String.length (dropBytes n s) = (String.length s - n)%nat.
Proof.
  induction n as [|n IH]; intros [|c s]; simpl; done.
Qed.

Lemma getEsc_length chunk r nchunk :
  getEsc chunk = Some (r, nchunk) →
  (String.length nchunk < String.length chunk)%nat.
Proof.
  unfold getEsc. destruct chunk as [|c r0]; [done|].
  destruct (Ascii.eqb c "-" || Ascii.eqb c "]"); [done|].
  set (chunk1 := if Ascii.eqb c "\" then r0 else String c r0).
  assert (String.length chunk1 ≤ String.length (String c r0))%nat as Hle.
  { unfold chunk1. destruct (Ascii.eqb c "\"); simpl; lia. }
  destruct (String.eqb chunk1 "") eqn:Hne; [done|].
  apply String.eqb_neq in Hne.
  pose proof (decodeRune_width chunk1 Hne) as Hw.
  destruct (decodeRune chunk1) as [r1 n]. simpl in Hw.
  destruct ((N.eqb r1 RuneError && Nat.eqb n 1)
            || String.eqb (dropBytes n chunk1) ""); [done|].
  intros [= <- <-]. rewrite dropBytes_length.
  destruct chunk1; [done|]. simpl in *. lia.
Qed.

Lemma tail_length s : (String.length (tail s) ≤ String.length s)%nat.
Proof. destruct s; simpl; lia. Qed.

Lemma classLoop_total fuel : ∀ r chunk nrange matched,
  (String.length chunk < fuel)%nat →
  match classLoop fuel r chunk nrange matched with
  | OutOfFuel => False
  | BadPattern => True
  | Val (_, rest) => (String.length rest < String.length chunk)%nat
  end.
Proof.
  induction fuel as [|fuel IH]; intros r chunk nrange matched Hlen; [lia|].
  simpl. destruct (startsWith "]" chunk && (0 <? nrange)%nat) eqn:Hend.
  { destruct chunk; [done|]. simpl. lia. }
  destruct (getEsc chunk) as [[lo chunk1]|] eqn:H1; [|done].
  apply getEsc_length in H1.
  destruct (startsWith "-" chunk1).
  - destruct (getEsc (tail chunk1)) as [[hi chunk2]|] eqn:H2; [|done].
    apply getEsc_length in H2. pose proof (tail_length chunk1).
    specialize (IH r chunk2 (S nrange) (matched || inRange lo r hi)).
    destruct (classLoop fuel r chunk2 (S nrange) (matched || inRange lo r hi))
      as [[m rest]| |]; [|done|]; specialize (IH ltac:(lia)); [lia|done].
  - specialize (IH r chunk1 (S nrange) (matched || inRange lo r lo)).
    destruct (classLoop fuel r chunk1 (S nrange) (matched || inRange lo r lo))
      as [[m rest]| |]; [|done|]; specialize (IH ltac:(lia)); [lia|done].
Qed.

#[local] Arguments classLoop : simpl never.

Lemma matchChunk_go_total fuel : ∀ failed chunk s,
  (String.length chunk ≤ fuel)%nat →
  matchChunk_go fuel failed chunk s ≠ OutOfFuel.
Proof.
  induction fuel as [|fuel IH]; intros failed chunk s Hlen.
  { destruct chunk; [|simpl in Hlen; lia]. simpl. by destruct failed. }
  destruct chunk as [|c chunk']; [simpl; by destruct failed|].
  simpl in Hlen. simpl.
  assert (∀ c0 rest, (String.length rest ≤ fuel)%nat →
            (if failed || String.eqb s ""
             then matchChunk_go fuel true rest s
             else match s with
                  | EmptyString => matchChunk_go fuel true rest s
                  | String s0 s' =>
                      matchChunk_go fuel (negb (Ascii.eqb c0 s0)) rest s'
                  end) ≠ OutOfFuel) as Hlit.
  { intros c0 rest Hr. destruct (failed || String.eqb s ""); [by apply IH|].
    destruct s; by apply IH. }
  destruct (Ascii.eqb c "[").
  - set (chunk1 := if startsWith "^" chunk' then tail chunk' else chunk').
    assert (String.length chunk1 ≤ String.length chunk')%nat as H1.
    { unfold chunk1. destruct (startsWith "^" chunk'); [apply tail_length|lia]. }
    destruct (classArg (failed || String.eqb s "") s) as [r s1].
    pose proof (classLoop_total (S (String.length chunk1)) r chunk1 0 false) as Hc.
    destruct (classLoop (S (String.length chunk1)) r chunk1 0 false)
      as [[m chunk2]| |]; [|done|].
    + apply IH. specialize (Hc ltac:(lia)). simpl in Hc. lia.
    + by specialize (Hc ltac:(lia)).
  - destruct (Ascii.eqb c "?").
    + destruct (failed || String.eqb s ""); apply IH; lia.
    + destruct (Ascii.eqb c "\").
      * destruct chunk' as [|c2 chunk'']; [done|]. simpl in Hlen.
        apply Hlit. lia.
      * apply Hlit. lia.
Qed.

Lemma matchChunk_total chunk s : matchChunk chunk s ≠ OutOfFuel.
Proof. unfold matchChunk. by apply matchChunk_go_total. Qed.

Lemma starLoop_total chunk lastChunk name :
  starLoop chunk lastChunk name ≠ OutOfFuel.
Proof.
  induction name as [|c name IH]; simpl; [done|].
  destruct (isSep c); [done|].
  pose proof (matchChunk_total chunk name).
  destruct (matchChunk chunk name) as [[t|]| |]; try done.
  by destruct (lastChunk && negb (String.eqb t "")).
Qed.

Lemma dropStars_length pattern :
  (String.length (dropStars pattern).2 ≤ String.length pattern)%nat
  ∧ ((dropStars pattern).1 = true →
     String.length (dropStars pattern).2 < String.length pattern)%nat
  ∧ startsWith "*" (dropStars pattern).2 = false.
Proof.
  induction pattern as [|c r IH]; simpl; [by split_and!|].
  destruct (Ascii.eqb c "*") eqn:Hc; simpl.
  - destruct IH as (IH1 & _ & IH3). split_and!; [lia|lia|done].
  - split_and!; [lia|done|done].
Qed.

Lemma scanEnd_length n : ∀ inrange pattern,
  (String.length pattern ≤ n)%nat →
  (String.length (scanEnd inrange pattern).2 ≤ String.length pattern)%nat
  ∧ (pattern ≠ "" → startsWith "*" pattern = false →
     String.length (scanEnd inrange pattern).2 < String.length pattern)%nat.
Proof.
  induction n as [|n IH]; intros inrange pattern Hn.
  { destruct pattern; [|simpl in Hn; lia]. simpl. split; [lia|done]. }
  destruct pattern as [|c r]; [simpl; split; [lia|done]|].
  simpl in Hn. simpl.
  destruct (Ascii.eqb c "\").
  { destruct r as [|c2 r2]; simpl; [split; [lia|intros; lia]|].
    simpl in Hn. destruct (IH inrange r2) as [H1 _]; [lia|].
    split; [lia|intros; lia]. }
  destruct (Ascii.eqb c "[").
  { simpl. destruct (IH true r) as [H1 _]; [lia|]. split; [lia|intros; lia]. }
  destruct (Ascii.eqb c "]").
  { simpl. destruct (IH false r) as [H1 _]; [lia|]. split; [lia|intros; lia]. }
  destruct (Ascii.eqb c "*") eqn:Hstar.
  { destruct inrange; simpl.
    - destruct (IH true r) as [H1 _]; [lia|]. split; [lia|intros; lia].
    - split; [lia|]. intros _ Hs. simpl in Hs. congruence. }
  simpl. destruct (IH inrange r) as [H1 _]; [lia|]. split; [lia|intros; lia].
Qed.

Lemma scanChunk_length pattern star chunk rest :
  pattern ≠ "" → scanChunk pattern = (star, chunk, rest) →
  (String.length rest < String.length pattern)%nat.
Proof.
  intros Hne. unfold scanChunk.
  pose proof (dropStars_length pattern) as (Hd1 & Hd2 & Hd3).
  destruct (dropStars pattern) as [st p] eqn:Hds. simpl in *.
  pose proof (scanEnd_length (String.length p) false p (le_n _)) as [Hs1 Hs2].
  destruct (scanEnd false p) as [ch rs] eqn:Hse. simpl in *.
  intros [= <- <- <-].
  destruct st; [specialize (Hd2 eq_refl); lia|].
  assert (p = pattern) as ->.
  { destruct pattern as [|c r]; [done|]. simpl in Hds.
    destruct (Ascii.eqb c "*"); [done|]. by injection Hds as <-. }
  specialize (Hs2 Hne Hd3). lia.
Qed.

Lemma checkRest_total fuel : ∀ pattern,
  (String.length pattern ≤ fuel)%nat → checkRest fuel pattern ≠ OutOfFuel.
Proof.
  induction fuel as [|fuel IH]; intros pattern Hlen.
  { destruct pattern; [done|simpl in Hlen; lia]. }
  destruct pattern as [|c r]; [done|].
  unfold checkRest; fold checkRest.
  destruct (scanChunk (String c r)) as [[star chunk] rest] eqn:Hsc.
  apply scanChunk_length in Hsc; [|done].
  pose proof (matchChunk_total chunk "").
  destruct (matchChunk chunk "") as [?| |]; [|done|done].
  apply IH. lia.
Qed.

Lemma Match_go_total fuel : ∀ pattern name,
  (String.length pattern ≤ fuel)%nat → Match_go fuel pattern name ≠ OutOfFuel.
Proof.
  induction fuel as [|fuel IH]; intros pattern name Hlen.
  { destruct pattern; [done|simpl in Hlen; lia]. }
  destruct pattern as [|c r]; [done|].
  unfold Match_go; fold Match_go.
  destruct (scanChunk (String c r)) as [[star chunk] rest] eqn:Hsc.
  apply scanChunk_length in Hsc; [|done].
  destruct (star && String.eqb chunk ""); [done|].
  assert (String.length rest ≤ fuel)%nat as Hrest by lia.
  pose proof (matchChunk_total chunk name).
  pose proof (starLoop_total chunk (String.eqb rest "") name).
  pose proof (checkRest_total fuel rest Hrest).
  destruct (matchChunk chunk name) as [[t|]| |]; [| |done|done].
  - destruct (String.eqb t "" || negb (String.eqb rest "")); [by apply IH|].
    destruct star; [|done].
    destruct (starLoop chunk (String.eqb rest "") name) as [[t'|]| |];
      [by apply IH|done|done|done].
  - destruct star; [|done].
    destruct (starLoop chunk (String.eqb rest "") name) as [[t'|]| |];
      [by apply IH|done|done|done].
Qed.

(** [filepath_Match] answers [None] only for a malformed pattern. *)
Lemma filepath_Match_None pattern name :
  filepath_Match pattern name = None ↔
  Match_go (String.length pattern) pattern name = BadPattern.
Proof.
  unfold filepath_Match.
  pose proof (Match_go_total (String.length pattern) pattern name (le_n _)).
  destruct (Match_go (String.length pattern) pattern name); split; done.
Qed.

(** ** Concrete runs

    A small file system, a tokenizer that yields one token per byte, and
    [filepath_Match] as the matcher. *)

Definition byteEncode (text : string) : list Z :=
  (λ c, Z.of_N (N_of_ascii c)) <$> String.list_ascii_of_string text.

Definition demoFs : gmap string fileData :=
  list_to_map
    [("a.go", {| f_size := 10; f_open := None; f_read := None;
                 f_bytes := "package a" +:+ nl |});
     ("c.txt", {| f_size := 6; f_open := None; f_read := None;
                  f_bytes := "hello" +:+ nl |});
     ("big.iso", {| f_size := 2 * 1024 * 1024; f_open := None; f_read := None;
                    f_bytes := "" |});
     ("b.png", {| f_size := 4; f_open := None; f_read := None;
                  f_bytes := String "137" (String "P" (String zero (String "G" ""))) |})].

Definition demoFiles : list string := ["a.go"; "c.txt"].

(** Both files are dispatched, both goroutines process their file, the
    second one takes the lock first. *)
Definition demoDispatch : list tid := replicate 12 Main.
Definition demoProcess : list tid := [Worker 0; Worker 1].
(** The second goroutine unlocks; the first one merges and returns; the
    second one returns; the loop ends and [wg.Wait()] returns. *)
Definition demoRest : list tid :=
  [Worker 1] ++ replicate 7 (Worker 0) ++ replicate 2 (Worker 0) ++ [Main; Main].

(** The whole run. *)
Definition demoSchedule : list tid :=
  demoDispatch ++ demoProcess ++ replicate 4 (Worker 1) ++ demoRest.

Definition demoInFlight : state :=
  Eval vm_compute in
  default (init []) (run byteEncode demoFs (demoDispatch ++ demoProcess) (init demoFiles)).

(** The second goroutine is at line 193, about to add its token count. *)
Definition demoBeforeIncr : state :=
  Eval vm_compute in
  default (init []) (run byteEncode demoFs (replicate 3 (Worker 1)) demoInFlight).

Definition demoAfterIncr : state :=
  Eval vm_compute in
  default (init []) (run byteEncode demoFs [Worker 1] demoBeforeIncr).

Definition demoFinal : state :=
  Eval vm_compute in
  default (init [])
    (run byteEncode demoFs demoRest demoAfterIncr).

(** A run that meets the limit.  The tokenizer makes 25000 tokens of every
    text, so that two files fill the budget of 50000 tokens.  Of the five
    candidates, ["gone.go"] does not exist any more when it is processed.
    The loop starts four goroutines; each processes its file; then the
    goroutines of ["a.go"] and ["b.go"] merge, the one of ["c.go"] finds the
    budget used up, and the loop leaves at line 172 before ["d.go"]. *)
Definition coarseEncode (text : string) : list Z :=
  replicate (Z.to_nat 25000) 0.

Definition tightFs : gmap string fileData :=
  list_to_map
    [("a.go", {| f_size := 10; f_open := None; f_read := None;
                 f_bytes := "package a" +:+ nl |});
     ("b.go", {| f_size := 10; f_open := None; f_read := None;
                 f_bytes := "package b" +:+ nl |});
     ("c.go", {| f_size := 10; f_open := None; f_read := None;
                 f_bytes := "package c" +:+ nl |});
     ("d.go", {| f_size := 10; f_open := None; f_read := None;
                 f_bytes := "package d" +:+ nl |})].

Definition tightFiles : list string :=
  ["a.go"; "gone.go"; "b.go"; "c.go"; "d.go"].

Definition tightSchedule : list tid :=
  replicate 24 Main
  ++ [Worker 0; Worker 1; Worker 2; Worker 3]
  ++ replicate 7 (Worker 0) ++ replicate 2 (Worker 0)
  ++ replicate 7 (Worker 0) ++ replicate 6 (Worker 0)
  ++ replicate 4 Main.

Definition tightFinal : state :=
  Eval vm_compute in
  default (init []) (run coarseEncode tightFs tightSchedule (init tightFiles)).

(** The tree of the first run and the image file in it. *)
Definition demoTree : node :=
  Dir "." [Dir ".git" [File "config"] None; File "a.go";
           File "b.png"; File "big.iso"; File "c.txt"] None.


(** [strings.TrimSpace] on a line of ASCII: tab, newline, vertical tab,
    form feed, carriage return and space are cut from both ends. *)
Definition isAsciiSpace (c : ascii) : bool :=
  let n := N_of_ascii c in
  ((9 <=? n)%N && (n <=? 13)%N) || (n =? 32)%N.

Fixpoint trimLeft (s : string) : string :=
  match s with
  | EmptyString => EmptyString
  | String c s' => if isAsciiSpace c then trimLeft s' else s
  end.

Fixpoint trimRight (s : string) : string :=
  match s with
  | EmptyString => EmptyString
  | String c s' =>
      let r := trimRight s' in
      if String.eqb r "" && isAsciiSpace c then EmptyString else String c r
  end.

Definition trimSpaceASCII (s : string) : string := trimRight (trimLeft s).

(** A [.gitignore] with a comment, a blank line, a padded pattern, an
    indented comment and a line that ends in a carriage return. *)
Definition gitignoreFile : fileData :=
  {| f_size := 40; f_open := None; f_read := None;
     f_bytes := "# build output" +:+ nl +:+ nl +:+ "  *.tmp  " +:+ nl
                +:+ String "009" "# note" +:+ nl
                +:+ "vendor" +:+ String "013" nl |}.

Definition gitFs : gmap string fileData :=
  <[".gitignore" := gitignoreFile]> demoFs.

(** A [.gitignore] that cannot be opened. *)
Definition lockedGitignore : fileData :=
  {| f_size := 40; f_open := Some "open .gitignore: permission denied";
     f_read := None; f_bytes := "vendor" +:+ nl |}.

Definition lockedFs : gmap string fileData :=
  <[".gitignore" := lockedGitignore]> demoFs.

(** Names outside ASCII: [e_acute] is U+00E9, [euro] is U+20AC, [grin] is
    U+1F600, in UTF-8. *)
Definition e_acute : string := String "195" (String "169" "").
Definition euro : string := String "226" (String "130" (String "172" "")).
Definition grin : string :=
  String "240" (String "159" (String "152" (String "128" ""))).

Example Match_star : filepath_Match "*.log" "a.log" = Some true.
Proof. reflexivity. Qed.
Example Match_literal : filepath_Match "vendor" "x.go" = Some false.
Proof. reflexivity. Qed.
Example Match_class : filepath_Match "[a-c]?.go" "bz.go" = Some true.
Proof. reflexivity. Qed.
Example Match_negated_class : filepath_Match "[^a]" "b" = Some true.
Proof. reflexivity. Qed.
Example Match_two_stars : filepath_Match "a*b*c" "axxbyyc" = Some true.
Proof. reflexivity. Qed.
Example Match_two_stars_no : filepath_Match "a*b*c" "axxbyy" = Some false.
Proof. reflexivity. Qed.
Example Match_escape : filepath_Match "a\*" "a*" = Some true.
Proof. reflexivity. Qed.
Example Match_bad_class : Match_go 1 "[" "x.go" = BadPattern.
Proof. reflexivity. Qed.
Example Match_bad_rest : Match_go 3 "x*[" "y" = BadPattern.
Proof. reflexivity. Qed.
Example decodeRune_ascii : decodeRune "a.go" = (97%N, 1%nat).
Proof. reflexivity. Qed.
Example decodeRune_two : decodeRune (e_acute +:+ "x") = (233%N, 2%nat).
Proof. reflexivity. Qed.
Example decodeRune_three : decodeRune euro = (8364%N, 3%nat).
Proof. reflexivity. Qed.
Example decodeRune_four : decodeRune grin = (128512%N, 4%nat).
Proof. reflexivity. Qed.
Example decodeRune_overlong :
  decodeRune (String "192" (String "128" "")) = (RuneError, 1%nat).
Proof. reflexivity. Qed.
Example decodeRune_surrogate :
  decodeRune (String "237" (String "160" (String "128" ""))) = (RuneError, 1%nat).
Proof. reflexivity. Qed.
Example decodeRune_cut_short :
  decodeRune (String "226" (String "130" "")) = (RuneError, 1%nat).
Proof. reflexivity. Qed.
Example Match_question_rune :
  filepath_Match "?.go" (e_acute +:+ ".go") = Some true.
Proof. reflexivity. Qed.
Example Match_class_rune :
  filepath_Match ("[" +:+ e_acute +:+ "-" +:+ euro +:+ "]")
    (String "195" (String "191" ""))
  = Some true.
Proof. reflexivity. Qed.
Example Match_class_bad_rune :
  filepath_Match ("[" +:+ String "255" "]") "a" = None.
Proof. reflexivity. Qed.
Example Match_literal_bytes :
  filepath_Match (e_acute +:+ "*") (e_acute +:+ "t" +:+ e_acute) = Some true.
Proof. reflexivity. Qed.
Example Base_file : Base "vendor/x.go" = "x.go".
Proof. reflexivity. Qed.
Example Base_trailing : Base "a/b/" = "b".
Proof. reflexivity. Qed.
Example Base_root : Base "///" = "/".
Proof. reflexivity. Qed.
Example Base_empty : Base "" = ".".
Proof. reflexivity. Qed.

(** From the walk to the two strings returned, the goroutines running one
    after the other: [.git] is pruned, [b.png] is excluded by name, and
    [big.iso] is listed in the tree but skipped by [processFile]. *)
Example collect_demo :
  collectFilesContent filepath_Match byteEncode demoFs [] [".git"; "*.png"]
    (LstatOk (Dir "." [Dir ".git" [File "config"] None; File "a.go";
                       File "b.png"; File "big.iso"; File "c.txt"] None))
    (mjoin (replicate 3 (replicate 6 Main ++ replicate 8 (Worker 0)))
       ++ [Main; Main])
  = Some ("a.go" +:+ nl +:+ "big.iso" +:+ nl +:+ "c.txt" +:+ nl,
          "File: a.go" +:+ nl +:+ "package a" +:+ nl +:+ nl
          +:+ "File: c.txt" +:+ nl +:+ "hello" +:+ nl +:+ nl).
Proof. reflexivity. Qed.

Example demoFinal_returned :
  returned demoFiles demoFinal
  = Some ("a.go" +:+ nl +:+ "c.txt" +:+ nl,
          "File: c.txt" +:+ nl +:+ "hello" +:+ nl +:+ nl
          +:+ "File: a.go" +:+ nl +:+ "package a" +:+ nl +:+ nl).
Proof. reflexivity. Qed.

Lemma byteEncode_fits : tokens_fit byteEncode demoFs demoFiles.
Proof. repeat constructor; by vm_compute. Qed.

Lemma demoInFlight_reachable : reachable byteEncode demoFs demoFiles demoInFlight.
Proof. apply (run_reachable _ _ (demoDispatch ++ demoProcess)). reflexivity. Qed.

Lemma demoBeforeIncr_reachable :
  reachable byteEncode demoFs demoFiles demoBeforeIncr.
Proof.
  apply (run_reachable _ _ (demoDispatch ++ demoProcess ++ replicate 3 (Worker 1))).
  reflexivity.
Qed.

Lemma demoFinal_from_inflight : rtc (step byteEncode demoFs) demoInFlight demoFinal.
Proof.
  apply (run_reachable _ _ (replicate 4 (Worker 1) ++ demoRest)). reflexivity.
Qed.

(** C3, counterexample: the path contains the include pattern, not at its
    end; the rule of the specification includes it, [isIncluded] does not. *)
Lemma C3_counterexample :
  Contains "vendor/x.go" "vendor" = true
  ∧ HasSuffix "vendor/x.go" "vendor" = false
  ∧ spec_isIncluded filepath_Match "vendor/x.go" ["vendor"] = true
  ∧ isIncluded filepath_Match "vendor/x.go" ["vendor"] = false.
Proof. by vm_compute. Qed.

(** C5, counterexample: the pattern is malformed and occurs in the path;
    the path is not excluded. *)
Lemma C5_counterexample :
  Match_go 1 "[" (Base "a[b.txt") = BadPattern
  ∧ filepath_Match "[" (Base "a[b.txt") = None
  ∧ Contains "a[b.txt" "[" = true
  ∧ isIgnored filepath_Match "a[b.txt" ["["] = false.
Proof. by vm_compute. Qed.

Lemma C5_witness :
  filepath_Match "[" (Base "logs/a[b.txt") = None
  ∧ isIgnored filepath_Match "logs/a[b.txt" (["*.tmp"] ++ "[" :: ["logs"])
    = isIgnored filepath_Match "logs/a[b.txt" (["*.tmp"] ++ ["logs"]).
Proof.
  split; [reflexivity|].
  apply (C5_malformed_skipped filepath_Match "logs/a[b.txt" "[" ["*.tmp"] ["logs"]).
  reflexivity.
Defined.

(** C4, counterexample: the directory [a] cannot be read; [b.go], which
    comes after it and is a candidate when [a] is readable, is not in the
    candidate list. *)
Lemma C4_counterexample :
  discover filepath_Match [] []
    (LstatOk (Dir "." [Dir "a" [] None; File "b.go"] None))
  = (["b.go"], [])
  ∧ discover filepath_Match [] []
      (LstatOk (Dir "." [Dir "a" [] (Some "open a: permission denied");
                         File "b.go"] None))
    = ([], ["Error: open a: permission denied" +:+ nl]).
Proof. by vm_compute. Qed.

Lemma C4_witness :
  walkEntries (walkDir (walkFn filepath_Match [".go"] [".git"])) "."
    ([File "a.go"] ++ Dir "sub" [File "c.go"] (Some "permission denied")
       :: [File "z.go"]) []
  = (["a.go"], Some (IOError "permission denied")).
Proof.
  destruct (C4_enumeration_error_stops_walk filepath_Match [".go"] [".git"])
    as (Hdir & Hloop & _).
  apply (Hloop "." [File "a.go"] (Dir "sub" [File "c.go"] (Some "permission denied"))
           [File "z.go"] [] ["a.go"] ["a.go"] "permission denied").
  - reflexivity.
  - apply (Hdir "sub" "sub" [File "c.go"] "permission denied" ["a.go"]).
    reflexivity.
Defined.

Lemma C6_witness :
  isIgnored filepath_Match "build" ["b*"] = true
  ∧ walkDir (walkFn filepath_Match [".go"] ["b*"]) "build"
      (Dir "build" [File "x.go"] None) ["main.go"]
    = (["main.go"], None)
  ∧ walkDir (traced filepath_Match [".go"] ["b*"]) "build"
      (Dir "build" [File "x.go"] None) (["main.go"], ["."; "main.go"])
    = ((["main.go"], ["."; "main.go"; "build"]), None).
Proof.
  split; [reflexivity|].
  destruct (C6_excluded_directory_pruned filepath_Match [".go"] ["b*"])
    as [Hlocal _].
  apply (Hlocal "build" "build" [File "x.go"] None ["main.go"] ["."; "main.go"]).
  reflexivity.
Defined.

Lemma C7_witness :
  isIgnored filepath_Match "vendor/x.go" ["vendor"] = true
  ∧ isIncluded filepath_Match "vendor/x.go" [".go"] = true
  ∧ "vendor/x.go" ∉
      (discover filepath_Match [".go"] ["vendor"]
         (LstatOk (Dir "." [File "main.go"; Dir "vendor" [File "x.go"] None]
                     None))).1.
Proof.
  split; [reflexivity|]. split; [reflexivity|].
  apply (C7_exclusion_precedence filepath_Match [".go"] ["vendor"]); reflexivity.
Defined.

Lemma C8_witness :
  processFile byteEncode demoFs "big.iso"
  = (Ok ("", 0),
     [EvStat "big.iso";
      EvPrint ("Skipping large file (>1MB): " +:+ "big.iso" +:+ nl)])
  ∧ processFile byteEncode demoFs "b.png"
    = (Ok ("", 0),
       [EvStat "b.png"; EvOpen "b.png"; EvRead "b.png" (Z.to_nat 8000);
        EvClose "b.png";
        EvPrint ("Skipping binary file: " +:+ "b.png" +:+ nl)]).
Proof.
  split.
  - apply (C8_skip_contract byteEncode demoFs "big.iso"
             {| f_size := 2 * 1024 * 1024; f_open := None; f_read := None;
                f_bytes := "" |}); reflexivity.
  - apply (C8_skip_contract byteEncode demoFs "b.png"
             {| f_size := 4; f_open := None; f_read := None;
                f_bytes := String "137" (String "P" (String zero (String "G" ""))) |});
      try reflexivity.
    by vm_compute.
Defined.

Lemma C9_witness :
  reachable byteEncode demoFs demoFiles demoBeforeIncr
  ∧ totalTokens (sh demoBeforeIncr) ≤ maxTotalTokens.
Proof.
  split; [apply demoBeforeIncr_reachable|].
  apply (C9_budget_never_exceeded byteEncode demoFs demoFiles).
  apply demoBeforeIncr_reachable.
Defined.

Lemma C2_witness :
  main demoFinal = MDone
  ∧ inflightMax byteEncode demoFs demoInFlight = 22
  ∧ totalTokens (sh demoFinal)
    ≤ maxTotalTokens + inflightMax byteEncode demoFs demoInFlight.
Proof.
  split; [reflexivity|]. split; [reflexivity|].
  apply (C2_bounded_overshoot byteEncode demoFs demoFiles).
  - apply demoInFlight_reachable.
  - apply demoFinal_from_inflight.
  - reflexivity.
Defined.

Lemma C1_witness :
  tokens_fit byteEncode demoFs demoFiles
  ∧ reachable byteEncode demoFs demoFiles demoBeforeIncr
  ∧ step byteEncode demoFs demoBeforeIncr demoAfterIncr
  ∧ totalTokens (sh demoBeforeIncr) = 0
  ∧ totalTokens (sh demoAfterIncr) = 19
  ∧ (tokens_fit byteEncode demoFs demoFiles →
     totalTokens (sh demoBeforeIncr) ≤ totalTokens (sh demoAfterIncr))
  ∧ (totalTokens (sh demoAfterIncr) ≠ totalTokens (sh demoBeforeIncr)
     ∨ collectedContent (sh demoAfterIncr) ≠ collectedContent (sh demoBeforeIncr) →
     ∃ path content n,
       merging demoBeforeIncr demoAfterIncr path content n
       ∧ processed byteEncode demoFs path content n
       ∧ add_int (totalTokens (sh demoBeforeIncr)) n ≤ maxTotalTokens
       ∧ (tokens_fit byteEncode demoFs demoFiles →
          add_int (totalTokens (sh demoBeforeIncr)) n
          = totalTokens (sh demoBeforeIncr) + n)
       ∧ mu (sh demoBeforeIncr) = true ∧ mu (sh demoAfterIncr) = true
       ∧ holders demoBeforeIncr = 1%nat).
Proof.
  assert (step byteEncode demoFs demoBeforeIncr demoAfterIncr) as Hstep
    by (exists (Worker 1); reflexivity).
  split; [apply byteEncode_fits|]. split; [apply demoBeforeIncr_reachable|].
  split; [exact Hstep|]. split; [reflexivity|]. split; [reflexivity|].
  apply (C1_atomic_budget_merge byteEncode demoFs demoFiles).
  - apply demoBeforeIncr_reachable.
  - exact Hstep.
Defined.

Lemma C10_witness :
  run coarseEncode tightFs tightSchedule (init tightFiles) = Some tightFinal
  ∧ returned tightFiles tightFinal
    = Some (buildFileTree tightFiles,
            "File: a.go" +:+ nl +:+ "package a" +:+ nl +:+ nl
            +:+ "File: b.go" +:+ nl +:+ "package b" +:+ nl +:+ nl)
  ∧ acceptedBy coarseEncode tightFs tightSchedule tightFiles = ["a.go"; "b.go"]
  ∧ rejectedBy coarseEncode tightFs tightSchedule tightFiles = ["c.go"]
  ∧ failedBy coarseEncode tightFs tightSchedule tightFiles = ["gone.go"]
  ∧ collectedContent (sh tightFinal)
    = texts coarseEncode tightFs
        (acceptedBy coarseEncode tightFs tightSchedule tightFiles)
  ∧ acceptedBy coarseEncode tightFs tightSchedule tightFiles ⊆+ tightFiles
  ∧ Forall (λ path, ∃ text n, processed coarseEncode tightFs path text n)
           (acceptedBy coarseEncode tightFs tightSchedule tightFiles)
  ∧ totalTokens (sh tightFinal)
    = tokenSum coarseEncode tightFs
        (acceptedBy coarseEncode tightFs tightSchedule tightFiles)
  ∧ (∀ k, tokenSum coarseEncode tightFs
            (take k (acceptedBy coarseEncode tightFs tightSchedule tightFiles))
          ≤ maxTotalTokens)
  ∧ (∃ dispatched dropped,
       tightFiles = dispatched ++ dropped
       ∧ dispatched ≡ₚ acceptedBy coarseEncode tightFs tightSchedule tightFiles
                        ++ rejectedBy coarseEncode tightFs tightSchedule tightFiles
                        ++ failedBy coarseEncode tightFs tightSchedule tightFiles
       ∧ (dropped ≠ []
          → brokeAt coarseEncode tightFs
              (acceptedBy coarseEncode tightFs tightSchedule tightFiles)))
  ∧ Forall (rejectedAt coarseEncode tightFs
              (acceptedBy coarseEncode tightFs tightSchedule tightFiles))
           (rejectedBy coarseEncode tightFs tightSchedule tightFiles)
  ∧ Forall (failedFile coarseEncode tightFs)
           (failedBy coarseEncode tightFs tightSchedule tightFiles)
  ∧ workers tightFinal = []
  ∧ (∀ s', ¬ step coarseEncode tightFs tightFinal s').
Proof.
  split; [by vm_compute|]. split; [by vm_compute|].
  split; [by vm_compute|]. split; [by vm_compute|]. split; [by vm_compute|].
  apply (C10_content_is_concatenation coarseEncode tightFs tightFiles
           tightSchedule tightFinal (buildFileTree tightFiles)).
  - by vm_compute.
  - reflexivity.
Defined.

Lemma mutual_exclusion_witness :
  reachable byteEncode demoFs demoFiles demoBeforeIncr
  ∧ mu (sh demoBeforeIncr) = true
  ∧ (holders demoBeforeIncr ≤ 1)%nat
  ∧ (holders demoBeforeIncr = 1%nat ↔ mu (sh demoBeforeIncr) = true).
Proof.
  split; [apply demoBeforeIncr_reachable|]. split; [reflexivity|].
  apply (mutual_exclusion byteEncode demoFs demoFiles).
  apply demoBeforeIncr_reachable.
Defined.

Lemma pool_bounded_witness :
  reachable byteEncode demoFs demoFiles demoInFlight
  ∧ sem (sh demoInFlight) = 2%nat
  ∧ sem (sh demoInFlight)
    = (mslot (main demoInFlight) + sum_list_with wslot (workers demoInFlight))%nat
  ∧ (sum_list_with wslot (workers demoInFlight) ≤ maxGoroutines)%nat.
Proof.
  split; [apply demoInFlight_reachable|]. split; [reflexivity|].
  apply (pool_bounded byteEncode demoFs demoFiles).
  apply demoInFlight_reachable.
Defined.

Lemma deadlock_free_witness :
  reachable byteEncode demoFs demoFiles demoInFlight
  ∧ main demoInFlight ≠ MDone
  ∧ ∃ s', step byteEncode demoFs demoInFlight s'.
Proof.
  split; [apply demoInFlight_reachable|]. split; [done|].
  apply (deadlock_free byteEncode demoFs demoFiles).
  - apply demoInFlight_reachable.
  - done.
Defined.

Lemma runs_are_bounded_witness :
  run byteEncode demoFs (demoDispatch ++ demoProcess) (init demoFiles)
  = Some demoInFlight
  ∧ (length (demoDispatch ++ demoProcess) + remaining demoInFlight
     ≤ 14 * length demoFiles + 2)%nat.
Proof.
  split; [reflexivity|].
  apply (runs_are_bounded byteEncode demoFs demoFiles). reflexivity.
Defined.

Lemma discover_collects_witness :
  readable (prune filepath_Match [".git"; "*.png"] "." demoTree) = true
  ∧ discover filepath_Match ["*.go"; "*.txt"] [".git"; "*.png"] (LstatOk demoTree)
    = (List.filter (kept filepath_Match ["*.go"; "*.txt"] [".git"; "*.png"])
         (allFiles "." (prune filepath_Match [".git"; "*.png"] "." demoTree)),
       [])
  ∧ discover filepath_Match ["*.go"; "*.txt"] [".git"; "*.png"] (LstatOk demoTree)
    = (["a.go"; "c.txt"], []).
Proof.
  split; [reflexivity|]. split; [|reflexivity].
  apply (discover_collects filepath_Match). reflexivity.
Defined.

Lemma buildFileTree_lines_witness :
  Forall (λ path, hasByte "010" path = false) demoFiles
  ∧ rawLines "" (buildFileTree demoFiles) = demoFiles
  ∧ ∀ files', Forall (λ path, hasByte "010" path = false) files' →
      buildFileTree files' = buildFileTree demoFiles → files' = demoFiles.
Proof.
  assert (Forall (λ path, hasByte "010" path = false) demoFiles) as H.
  { repeat constructor. }
  split; [exact H|]. apply (buildFileTree_lines demoFiles). exact H.
Defined.

Lemma processFile_result_witness :
  (processFile byteEncode demoFs "a.go").1
  = Ok ("File: a.go" +:+ nl +:+ "package a" +:+ nl +:+ nl, 22)
  ∧ (("File: a.go" +:+ nl +:+ "package a" +:+ nl +:+ nl = "" ∧ 22 = 0)
     ∨ (HasPrefix ("File: a.go" +:+ nl +:+ "package a" +:+ nl +:+ nl)
          ("File: " +:+ "a.go" +:+ nl) = true
        ∧ HasSuffix ("File: a.go" +:+ nl +:+ "package a" +:+ nl +:+ nl)
            (nl +:+ nl) = true
        ∧ 22 = countTokens byteEncode
                 ("File: a.go" +:+ nl +:+ "package a" +:+ nl +:+ nl))).
Proof.
  split; [reflexivity|].
  apply (processFile_result byteEncode demoFs "a.go"). reflexivity.
Defined.

Lemma processFile_verbatim_witness :
  demoFs !! "c.txt"
  = Some {| f_size := 6; f_open := None; f_read := None;
            f_bytes := "hello" +:+ nl |}
  ∧ (processFile byteEncode demoFs "c.txt").1
    = Ok ("File: " +:+ "c.txt" +:+ nl +:+ ("hello" +:+ nl) +:+ "" +:+ nl,
          countTokens byteEncode
            ("File: " +:+ "c.txt" +:+ nl +:+ ("hello" +:+ nl) +:+ "" +:+ nl)).
Proof.
  split; [reflexivity|].
  apply (processFile_verbatim byteEncode demoFs "c.txt"
           {| f_size := 6; f_open := None; f_read := None;
              f_bytes := "hello" +:+ nl |}); try reflexivity.
  simpl. unfold maxFileSize. lia.
Defined.



Lemma gitignore_all_or_nothing_witness :
  lockedFs !! ".gitignore" = Some lockedGitignore
  ∧ f_open lockedGitignore ≠ None
  ∧ (mainPatterns lockedFs trimSpaceASCII ".go" "vendor" true).1
    = (mainPatterns lockedFs trimSpaceASCII ".go" "vendor" false).1
  ∧ ∃ err, (mainPatterns lockedFs trimSpaceASCII ".go" "vendor" true).2
           = ["Error parsing .gitignore: " +:+ err +:+ nl].
Proof.
  split; [reflexivity|]. split; [done|].
  apply (gitignore_all_or_nothing lockedFs trimSpaceASCII ".go" "vendor"
           lockedGitignore).
  - reflexivity.
  - by left.
Defined.

Lemma empty_ignore_element_excludes_all_witness :
  filepath_Match "" "." ≠ None
  ∧ flagPatterns "vendor," = ["vendor"; ""]
  ∧ mainCandidates filepath_Match gitFs trimSpaceASCII "" "vendor," true
      (LstatOk demoTree) = [].
Proof.
  split; [done|]. split; [reflexivity|].
  apply (empty_ignore_element_excludes_all filepath_Match gitFs trimSpaceASCII).
  - done.
  - right. by exists "vendor".
Defined.

Lemma empty_include_element_includes_all_witness :
  "" ∈ flagPatterns ".go,"
  ∧ filepath_Match "" (Base "README.md") ≠ None
  ∧ isIncluded filepath_Match "README.md"
      (mainPatterns gitFs trimSpaceASCII ".go," "" true).1.1 = true.
Proof.
  assert ("" ∈ flagPatterns ".go,") as H.
  { change ("" ∈ [".go"; ""]). apply elem_of_cons. right.
    apply elem_of_cons. by left. }
  split; [exact H|]. split; [done|].
  apply (empty_include_element_includes_all filepath_Match gitFs trimSpaceASCII);
    [exact H|done].
Defined.

Lemma default_patterns_exclude_substrings_witness :
  "bin" ∈ defaultIgnorePatterns
  ∧ Contains "src/cabinet.go" "bin" = true
  ∧ filepath_Match "bin" (Base "src/cabinet.go") ≠ None
  ∧ "src/cabinet.go"
    ∉ mainCandidates filepath_Match gitFs trimSpaceASCII ".go" "" true
        (LstatOk (Dir "." [Dir "src" [File "cabinet.go"; File "main.go"] None]
                    None)).
Proof.
  assert ("bin" ∈ defaultIgnorePatterns) as H.
  { unfold defaultIgnorePatterns. do 8 (apply elem_of_cons; right).
    apply elem_of_cons. by left. }
  split; [exact H|]. split; [reflexivity|]. split; [done|].
  apply (default_patterns_exclude_substrings filepath_Match gitFs trimSpaceASCII
           ".go" "" true _ "src/cabinet.go" "bin");
    [exact H|reflexivity|done].
Defined.

Lemma within_budget_nothing_lost_witness :
  plainSum byteEncode demoFs demoFiles < maxTotalTokens
  ∧ run byteEncode demoFs demoSchedule (init demoFiles) = Some demoFinal
  ∧ acceptedBy byteEncode demoFs demoSchedule demoFiles = ["c.txt"; "a.go"]
  ∧ rejectedBy byteEncode demoFs demoSchedule demoFiles = []
  ∧ demoFiles ≡ₚ acceptedBy byteEncode demoFs demoSchedule demoFiles
                  ++ failedBy byteEncode demoFs demoSchedule demoFiles
  ∧ collectedContent (sh demoFinal)
    = texts byteEncode demoFs (acceptedBy byteEncode demoFs demoSchedule demoFiles)
  ∧ (∀ path, path ∈ demoFiles →
       (∃ text n, processed byteEncode demoFs path text n) →
       path ∈ acceptedBy byteEncode demoFs demoSchedule demoFiles).
Proof.
  split; [by vm_compute|]. split; [reflexivity|]. split; [reflexivity|].
  apply (within_budget_nothing_lost byteEncode demoFs demoFiles demoSchedule
           demoFinal (buildFileTree demoFiles)).
  - by vm_compute.
  - reflexivity.
  - reflexivity.
Defined.
